(** * The todo application's state engine (src/App.tsx)

    A shallow embedding of the [App] component: its [useState] cells, the
    error notifier with its 3000 ms timers, the handlers that talk to the
    remote API, and the filter that derives the visible list.

    Conventions of the embedding.
    - An [async] handler is a computation in the monad [M]: it threads the
      world (component state, pending timers, the log of API exchanges) and
      either completes normally or throws; [try { .. } catch { .. }] is
      [tryCatch].
    - The API module (./api/todos) is not part of the component; it is a
      parameter [remote : RemoteStore] that answers each call as a function
      of the exchanges made so far.
    - A handler runs to completion against [remote]: every [await] is
      answered before another handler starts, and takes no virtual time.
    - A handler memoised by [useCallback] sees the values of the render
      that created it. [loadTodos] is memoised on [[]] and reads the
      [AuthContext] value: it sees the one of the first render, the
      parameter [user]. [handleAddNewTodo] is not memoised and sees the
      value of the render it runs in, the parameter [currentUser]. The
      same owner throughout is the case [currentUser = user].
    - [handleToggleAllTodos] reads the list, which its dependency array
      does not name; the world keeps the list it closes over. *)

From Stdlib Require Import List ZArith NArith Bool String Ascii Lia Permutation.
Import ListNotations.

Local Open Scope Z_scope.

(** ** JavaScript strings *)

(** A JavaScript string is a sequence of UTF-16 code units. *)
Definition jsstring : Type := list N.

(** A string literal of the source (all of them are ASCII). *)
Definition js (s : string) : jsstring :=
  map N_of_ascii (list_ascii_of_string s).

(** [WhiteSpace] and [LineTerminator] of ECMAScript, the code units that
    [String.prototype.trim] strips. *)
Definition isWhiteSpace (c : N) : bool :=
  (  (c =? 0x0009) || (c =? 0x000A) || (c =? 0x000B) || (c =? 0x000C)
  || (c =? 0x000D) || (c =? 0x0020) || (c =? 0x00A0) || (c =? 0x1680)
  || ((0x2000 <=? c) && (c <=? 0x200A))
  || (c =? 0x2028) || (c =? 0x2029) || (c =? 0x202F) || (c =? 0x205F)
  || (c =? 0x3000) || (c =? 0xFEFF))%N.

Fixpoint trimStart (s : jsstring) : jsstring :=
  match s with
  | [] => []
  | c :: s' => if isWhiteSpace c then trimStart s' else s
  end.

Definition trimEnd (s : jsstring) : jsstring := rev (trimStart (rev s)).

(** [s.trim()] *)
Definition trim (s : jsstring) : jsstring := trimEnd (trimStart s).

(** ** Data model (./types) *)

Module Todo.
Record t : Type := mk
  { id : Z;
    userId : Z;
    title : jsstring;
    completed : bool }.
End Todo.

Module User.
Record t : Type := mk { id : Z }.
End User.

Inductive FilterType : Type := ALL | ACTIVE | COMPLETED.

Record ErrorType : Type := mkError
  { status : bool;
    message : jsstring }.

(** The second argument of [updateTodo]: [{ completed }] or [{ title }]. *)
Inductive Patch : Type :=
| PatchCompleted (completed : bool)
| PatchTitle (title : jsstring).

(** ** The remote API (./api/todos) *)

Inductive Call : Type :=
| GetTodos (userId : Z)
| CreateTodo (title : jsstring) (userId : Z)
| UpdateTodo (todoId : Z) (patch : Patch)
| DeleteTodo (todoId : Z).

Inductive Reply : Type :=
| Rejected
| Listed (todos : list Todo.t)
| Stored (todo : Todo.t)
| Removed.

Record Exchange : Type := mkExchange
  { call : Call;
    reply : Reply }.

(** The imported API functions: each promise settles as a function of the
    exchanges so far and of the arguments; [None] (or [false]) is a rejected
    promise. *)
Record RemoteStore : Type := mkRemote
  { list_ : list Exchange -> Z -> option (list Todo.t);
    create_ : list Exchange -> jsstring -> Z -> option Todo.t;
    update_ : list Exchange -> Z -> Patch -> option Todo.t;
    delete_ : list Exchange -> Z -> bool }.

(** ** Component state *)

(** The [useState] cells of [App]. *)
Record State : Type := mkState
  { todos : list Todo.t;
    visibleTodos : list Todo.t;
    filterBy : FilterType;
    error : ErrorType;
    todoTitle : jsstring;
    isAdding : bool;
    deletedTodoIds : list Z;
    selectedTodoIds : list Z }.

(** The world a handler runs in.
    - [toggleAllTodos] is the [todos] that the memoised
      [handleToggleAllTodos] closes over: [useCallback(.., [selectedTodoIds])]
      re-creates the handler only in a render where [selectedTodoIds] is a
      new array.
    - [timers] are the due times of the pending [setTimeout] callbacks; every
      callback of the component is [setError({ status: false, message: '' })].
    - [now] is the virtual clock in ms. *)
Record World : Type := mkWorld
  { st : State;
    toggleAllTodos : list Todo.t;
    log : list Exchange;
    timers : list Z;
    now : Z }.

Definition noError : ErrorType := {| status := false; message := [] |}.

Definition initialState : State :=
  {| todos := []; visibleTodos := []; filterBy := ALL; error := noError;
     todoTitle := []; isAdding := false;
     deletedTodoIds := []; selectedTodoIds := [] |}.

(** The first render. *)
Definition initialWorld : World :=
  {| st := initialState; toggleAllTodos := []; log := []; timers := [];
     now := 0 |}.

(** ** FilterView: the effect on [[filterBy, todos]] *)

(** The callback given to [todos.filter]; in the [ALL] case it returns the
    todo itself, an object, which is truthy. The [default] branch of the
    [switch] is not reached by any of the three modes. *)
Definition keeps (filterBy : FilterType) (todo : Todo.t) : bool :=
  match filterBy with
  | ALL => true
  | ACTIVE => negb (Todo.completed todo)
  | COMPLETED => Todo.completed todo
  end.

Definition filteredTodos (todos : list Todo.t) (filterBy : FilterType)
  : list Todo.t :=
  filter (keeps filterBy) todos.

(** [todos.every(todo => todo.completed)] *)
Definition isEachTodoCompleted (todos : list Todo.t) : bool :=
  forallb Todo.completed todos.

(** ** The monad of handlers *)

Inductive Completion (A : Type) : Type :=
| Normal (a : A)
| Throw.
Arguments Normal {A} a.
Arguments Throw {A}.

Definition M (A : Type) : Type := World -> Completion A * World.

Definition ret {A} (a : A) : M A := fun w => (Normal a, w).

Definition bind {A B} (m : M A) (k : A -> M B) : M B :=
  fun w =>
    match m w with
    | (Normal a, w') => k a w'
    | (Throw, w') => (Throw, w')
    end.

(** [try { body } catch { handler }] *)
Definition tryCatch {A} (body handler : M A) : M A :=
  fun w =>
    match body w with
    | (Normal a, w') => (Normal a, w')
    | (Throw, w') => handler w'
    end.

Declare Scope handler_scope.
Delimit Scope handler_scope with handler.
Notation "x <- m ;; k" := (bind m (fun x => k))
  (at level 61, m at next level, right associativity) : handler_scope.
Notation "m ;; k" := (bind m (fun _ => k))
  (at level 61, right associativity) : handler_scope.
Local Open Scope handler_scope.

(** The world a handler leaves behind. *)
Definition exec {A} (m : M A) (w : World) : World := snd (m w).

(** Whether the handler's promise was rejected. *)
Definition throws {A} (m : M A) (w : World) : bool :=
  match fst (m w) with
  | Normal _ => false
  | Throw => true
  end.

Definition gets {A} (f : State -> A) : M A := fun w => (Normal (f (st w)), w).

Definition modify (f : State -> State) : M unit :=
  fun w =>
    (Normal tt,
     {| st := f (st w); toggleAllTodos := toggleAllTodos w; log := log w;
        timers := timers w; now := now w |}).

(** *** State setters

    Each setter takes the updater form [set(current => next)]; a plain
    [set(value)] is the constant updater. *)

(** [setTodos]; the effect on [[filterBy, todos]] then recomputes
    [visibleTodos]. *)
Definition setTodos (next : list Todo.t) : M unit :=
  modify (fun s =>
    {| todos := next; visibleTodos := filteredTodos next (filterBy s);
       filterBy := filterBy s; error := error s; todoTitle := todoTitle s;
       isAdding := isAdding s; deletedTodoIds := deletedTodoIds s;
       selectedTodoIds := selectedTodoIds s |}).

Definition setFilterBy (next : FilterType) : M unit :=
  modify (fun s =>
    {| todos := todos s; visibleTodos := filteredTodos (todos s) next;
       filterBy := next; error := error s; todoTitle := todoTitle s;
       isAdding := isAdding s; deletedTodoIds := deletedTodoIds s;
       selectedTodoIds := selectedTodoIds s |}).

Definition withError (e : ErrorType) (s : State) : State :=
  {| todos := todos s; visibleTodos := visibleTodos s;
     filterBy := filterBy s; error := e; todoTitle := todoTitle s;
     isAdding := isAdding s; deletedTodoIds := deletedTodoIds s;
     selectedTodoIds := selectedTodoIds s |}.

Definition setError (e : ErrorType) : M unit := modify (withError e).

Definition setTodoTitle (next : jsstring) : M unit :=
  modify (fun s =>
    {| todos := todos s; visibleTodos := visibleTodos s;
       filterBy := filterBy s; error := error s; todoTitle := next;
       isAdding := isAdding s; deletedTodoIds := deletedTodoIds s;
       selectedTodoIds := selectedTodoIds s |}).

Definition setIsAdding (next : bool) : M unit :=
  modify (fun s =>
    {| todos := todos s; visibleTodos := visibleTodos s;
       filterBy := filterBy s; error := error s; todoTitle := todoTitle s;
       isAdding := next; deletedTodoIds := deletedTodoIds s;
       selectedTodoIds := selectedTodoIds s |}).

Definition setDeletedTodoIds (f : list Z -> list Z) : M unit :=
  modify (fun s =>
    {| todos := todos s; visibleTodos := visibleTodos s;
       filterBy := filterBy s; error := error s; todoTitle := todoTitle s;
       isAdding := isAdding s; deletedTodoIds := f (deletedTodoIds s);
       selectedTodoIds := selectedTodoIds s |}).

(** [setSelectedTodoIds]: every call in the component stores a fresh array,
    so the next render re-creates [handleToggleAllTodos], which from then on
    closes over the [todos] of that render. *)
Definition setSelectedTodoIds (f : list Z -> list Z) : M unit :=
  fun w =>
    let s := st w in
    (Normal tt,
     {| st :=
          {| todos := todos s; visibleTodos := visibleTodos s;
             filterBy := filterBy s; error := error s;
             todoTitle := todoTitle s; isAdding := isAdding s;
             deletedTodoIds := deletedTodoIds s;
             selectedTodoIds := f (selectedTodoIds s) |};
        toggleAllTodos := todos s; log := log w; timers := timers w;
        now := now w |}).

(** [setTimeout(() => setError({ status: false, message: '' }), delay)] *)
Definition setTimeout (delay : Z) : M unit :=
  fun w =>
    (Normal tt,
     {| st := st w; toggleAllTodos := toggleAllTodos w; log := log w;
        timers := timers w ++ [now w + delay]; now := now w |}).

(** [ms] milliseconds pass: every callback that has come due runs, and is
    dropped from the pending timers. *)
Definition elapse (ms : Z) (w : World) : World :=
  let t := now w + ms in
  let due := filter (fun d => d <=? t) (timers w) in
  {| st := fold_left (fun s _ => withError noError s) due (st w);
     toggleAllTodos := toggleAllTodos w; log := log w;
     timers := filter (fun d => negb (d <=? t)) (timers w);
     now := t |}.

(** ** The component *)

Section App.

Variable remote : RemoteStore.

(** [useContext(AuthContext)] in the first render: what the memoised
    [loadTodos] closes over. *)
Variable user : option User.t.

(** [useContext(AuthContext)] in the current render: what
    [handleAddNewTodo], re-created on every render, closes over. *)
Variable currentUser : option User.t.

Definition record (c : Call) (r : Reply) (w : World) : World :=
  {| st := st w; toggleAllTodos := toggleAllTodos w;
     log := log w ++ [mkExchange c r]; timers := timers w; now := now w |}.

(** *** Awaited API calls *)

Definition getTodos (userId : Z) : M (list Todo.t) :=
  fun w =>
    match list_ remote (log w) userId with
    | Some l => (Normal l, record (GetTodos userId) (Listed l) w)
    | None => (Throw, record (GetTodos userId) Rejected w)
    end.

Definition createTodo (title : jsstring) (userId : Z) : M Todo.t :=
  fun w =>
    match create_ remote (log w) title userId with
    | Some t => (Normal t, record (CreateTodo title userId) (Stored t) w)
    | None => (Throw, record (CreateTodo title userId) Rejected w)
    end.

Definition updateTodo (todoId : Z) (patch : Patch) : M Todo.t :=
  fun w =>
    match update_ remote (log w) todoId patch with
    | Some t => (Normal t, record (UpdateTodo todoId patch) (Stored t) w)
    | None => (Throw, record (UpdateTodo todoId patch) Rejected w)
    end.

Definition deleteTodo (todoId : Z) : M unit :=
  fun w =>
    if delete_ remote (log w) todoId
    then (Normal tt, record (DeleteTodo todoId) Removed w)
    else (Throw, record (DeleteTodo todoId) Rejected w).

(** [await Promise.all(tasks)] where every task has been started in order.
    All tasks are dispatched whatever the others do; the promise is
    rejected when one of them is. In this component no task touches the
    state after its single [await], so running them one after the other
    leaves the same world. *)
Fixpoint promiseAll (tasks : list (M unit)) : M unit :=
  match tasks with
  | [] => ret tt
  | task :: rest =>
      fun w =>
        match task w with
        | (Normal _, w') => promiseAll rest w'
        | (Throw, w') => (Throw, snd (promiseAll rest w'))
        end
  end.

(** *** ErrorNotifier *)

Definition showError (message : jsstring) : M unit :=
  setError {| status := true; message := message |} ;;
  setTimeout 3000.

Definition handleCloseError : M unit := setError noError.

(** *** SyncEngine *)

(** Memoised on [[]]: the [user] tested is the one of the first render. *)
Definition loadTodos : M unit :=
  match user with
  | Some u =>
      tryCatch
        (todosFromServer <- getTodos (User.id u) ;;
         setTodos todosFromServer)
        (showError (js "Unable to load todos"))
  | None => ret tt
  end.

(** Not memoised: the [user] tested, and passed to [createTodo], is the
    one of the current render; the [loadTodos] called is the memoised one.
    [event.preventDefault()] has no effect on the component's state. *)
Definition handleAddNewTodo : M unit :=
  title <- gets todoTitle ;;
  match currentUser with
  | Some u =>
      setIsAdding true ;;
      tryCatch
        (if (List.length (trim title) =? 0)%nat
         then showError (js "Title can't be empty") ;;
              setIsAdding false
         else createTodo title (User.id u) ;;
              loadTodos ;;
              setIsAdding false ;;
              setTodoTitle [])
        (showError (js "Unable to add a todo") ;;
         setIsAdding false)
  | None => ret tt
  end.

Definition handleDeleteTodo (todoId : Z) : M unit :=
  setDeletedTodoIds (fun currentTodoIds => currentTodoIds ++ [todoId]) ;;
  tryCatch
    (deleteTodo todoId ;;
     loadTodos)
    (showError (js "Unable to delete a todo") ;;
     setDeletedTodoIds (fun _ => [])).

(** Memoised on [[todos]]: the handler always sees the current list. *)
Definition handleDeleteCompletedTodos : M unit :=
  todos <- gets todos ;;
  tryCatch
    (let completedTodoIds := map Todo.id (filter Todo.completed todos) in
     setDeletedTodoIds (fun _ => completedTodoIds) ;;
     promiseAll
       (map (fun todo =>
               if Todo.completed todo
               then deleteTodo (Todo.id todo)
               else ret tt)
            todos) ;;
     loadTodos)
    (showError (js "Unable to delete a todo") ;;
     setSelectedTodoIds (fun _ => [])).

Definition handleToggleTodo (todoId : Z) (completed : bool) : M unit :=
  setSelectedTodoIds (fun currentTodoIds => currentTodoIds ++ [todoId]) ;;
  tryCatch
    (updateTodo todoId (PatchCompleted (negb completed)) ;;
     loadTodos ;;
     setSelectedTodoIds
       (fun currentTodoIds =>
          filter (fun id => negb (id =? todoId)) currentTodoIds))
    (showError (js "Unable to update a todo") ;;
     setSelectedTodoIds (fun _ => [])).

(** The body of [handleToggleAllTodos], for the [todos] (and the
    [isEachTodoCompleted] memoised from them) it closes over. *)
Definition toggleAllOf (todos : list Todo.t) : M unit :=
  tryCatch
    (promiseAll
       (map (fun todo =>
               if negb (Todo.completed todo) || isEachTodoCompleted todos
               then
                 setSelectedTodoIds
                   (fun currentTodoIds =>
                      currentTodoIds ++ [Todo.id todo]) ;;
                 updateTodo (Todo.id todo)
                   (PatchCompleted (negb (Todo.completed todo))) ;;
                 ret tt
               else ret tt)
            todos) ;;
     loadTodos ;;
     setSelectedTodoIds (fun _ => []))
    (showError (js "Unable to update a todo") ;;
     setSelectedTodoIds (fun _ => [])).

(** Memoised on [[selectedTodoIds]]: the handler bound to the button is
    the one created in the last render that saw a new [selectedTodoIds]. *)
Definition handleToggleAllTodos : M unit :=
  fun w => toggleAllOf (toggleAllTodos w) w.

Definition handleChangeTodoTitle (todoId : Z) (title : jsstring) : M unit :=
  setSelectedTodoIds (fun _ => [todoId]) ;;
  tryCatch
    (updateTodo todoId (PatchTitle title) ;;
     loadTodos ;;
     setSelectedTodoIds (fun _ => []))
    (showError (js "Unable to update a todo") ;;
     setSelectedTodoIds (fun _ => [])).

Definition handleFilterSelect (filterType : FilterType) : M unit :=
  setFilterBy filterType.

Definition handleSetTodoTitle (title : jsstring) : M unit :=
  setTodoTitle title.

(** The mount effect [useEffect(() => { loadTodos(); }, [])]. *)
Definition mount : M unit := loadTodos.

(** *** The operations of the engine *)

Inductive Op : Type :=
| Reload
| Add
| Remove (id : Z)
| RemoveCompleted
| Toggle (id : Z) (completed : bool)
| ToggleAll
| Rename (id : Z) (title : jsstring).

Definition perform (op : Op) : M unit :=
  match op with
  | Reload => loadTodos
  | Add => handleAddNewTodo
  | Remove id => handleDeleteTodo id
  | RemoveCompleted => handleDeleteCompletedTodos
  | Toggle id completed => handleToggleTodo id completed
  | ToggleAll => handleToggleAllTodos
  | Rename id title => handleChangeTodoTitle id title
  end.

(** The exchanges a handler adds to the log of [w]. *)
Definition issued {A} (m : M A) (w : World) : list Exchange :=
  skipn (List.length (log w)) (log (exec m w)).

End App.

Arguments issued {A} m w.

(** ** Scenarios used to exercise the handlers *)

(** [{ id: 1, title: "A", completed: false }], owned by user 7. *)
Definition todoA : Todo.t :=
  {| Todo.id := 1; Todo.userId := 7; Todo.title := js "A";
     Todo.completed := false |}.

Definition todoB : Todo.t :=
  {| Todo.id := 2; Todo.userId := 7; Todo.title := js "B";
     Todo.completed := true |}.

Definition alice : User.t := {| User.id := 7 |}.

(** A store on which every call succeeds and [list] returns [served]. *)
Definition serving (served : list Todo.t) : RemoteStore :=
  {| list_ := fun _ _ => Some served;
     create_ := fun _ title userId =>
       Some {| Todo.id := 9; Todo.userId := userId; Todo.title := title;
               Todo.completed := false |};
     update_ := fun _ _ _ => Some todoA;
     delete_ := fun _ _ => true |}.

(** A store whose [list] always fails; the other calls succeed. *)
Definition listDown : RemoteStore :=
  {| list_ := fun _ _ => None;
     create_ := fun _ _ _ => Some todoA;
     update_ := fun _ _ _ => Some todoA;
     delete_ := fun _ _ => true |}.

(** A store on which every call fails. *)
Definition offline : RemoteStore :=
  {| list_ := fun _ _ => None;
     create_ := fun _ _ _ => None;
     update_ := fun _ _ _ => None;
     delete_ := fun _ _ => false |}.

(** The component showing [shown], with nothing in flight. *)
Definition showing (shown : list Todo.t) : World :=
  exec (setTodos shown) initialWorld.

(** ** Vocabulary of the properties *)

(** [m] takes every world to an [R]-related one, whether it throws or not. *)
Definition Maintains (R : World -> World -> Prop) {A} (m : M A) : Prop :=
  forall w, R w (snd (m w)).

(** [Subsequence xs ys]: [xs] is [ys] with some items left out, the others
    in the order they have in [ys]. *)
Inductive Subsequence {A : Type} : list A -> list A -> Prop :=
| Subsequence_nil : Subsequence [] []
| Subsequence_skip x xs ys : Subsequence xs ys -> Subsequence xs (x :: ys)
| Subsequence_keep x xs ys : Subsequence xs ys -> Subsequence (x :: xs) (x :: ys).

(** The list returned by the last fulfilled [getTodos] among [exchanges]. *)
Fixpoint lastListed (exchanges : list Exchange) : option (list Todo.t) :=
  match exchanges with
  | [] => None
  | e :: rest =>
      match lastListed rest with
      | Some l => Some l
      | None =>
          match call e, reply e with
          | GetTodos _, Listed l => Some l
          | _, _ => None
          end
      end
  end.

(** The cache after [exchanges], when it held [cached] before them. *)
Definition cacheAfter (exchanges : list Exchange) (cached : list Todo.t)
  : list Todo.t :=
  match lastListed exchanges with
  | Some l => l
  | None => cached
  end.

(** From [w] to [w'] the log has only grown, and the cached list is the one
    of the last fulfilled read among the new exchanges, if any. *)
Definition Reconciled (w w' : World) : Prop :=
  exists new,
    log w' = log w ++ new
    /\ todos (st w') = cacheAfter new (todos (st w)).

(** The API calls that take the owner's id. *)
Definition needsOwner (c : Call) : bool :=
  match c with
  | GetTodos _ | CreateTodo _ _ => true
  | UpdateTodo _ _ | DeleteTodo _ => false
  end.

(** What a handler cannot do without an owner: read or create on the remote
    store, or touch the list, the draft title and [isAdding]. *)
Definition Unowned (w w' : World) : Prop :=
  todos (st w') = todos (st w)
  /\ todoTitle (st w') = todoTitle (st w)
  /\ isAdding (st w') = isAdding (st w)
  /\ exists new,
       log w' = log w ++ new
       /\ Forall (fun e => needsOwner (call e) = false) new.

(** The world after [new] exchanges and nothing else. *)
Definition logged (new : list Exchange) (w : World) : World :=
  {| st := st w; toggleAllTodos := toggleAllTodos w; log := log w ++ new;
     timers := timers w; now := now w |}.

(** Calls to [updateTodo]. *)
Definition isUpdate (c : Call) : bool :=
  match c with
  | UpdateTodo _ _ => true
  | _ => false
  end.

(** The update calls a handler sends, in order. *)
Definition updatesIssued {A} (m : M A) (w : World) : list Call :=
  filter isUpdate (map call (issued m w)).

(** Calls to [deleteTodo]. *)
Definition isDelete (c : Call) : bool :=
  match c with
  | DeleteTodo _ => true
  | _ => false
  end.

(** The delete calls a handler sends, in order. *)
Definition deletesIssued {A} (m : M A) (w : World) : list Call :=
  filter isDelete (map call (issued m w)).

(** What [toggleAll] is to send for the list [l], in the words of the
    specification: when every item is completed, an update of every item to
    not completed; otherwise an update to completed of the items that are
    not completed, and none for the others. *)
Definition toggleAllUpdates (l : list Todo.t) : list Call :=
  if forallb Todo.completed l
  then map (fun todo => UpdateTodo (Todo.id todo) (PatchCompleted false)) l
  else map (fun todo => UpdateTodo (Todo.id todo) (PatchCompleted true))
         (filter (fun todo => negb (Todo.completed todo)) l).

(** The worlds the component can be in: the first render, then any
    operation of the engine (the mount effect is a reload) under any
    current owner, a filter selection, an edit of the draft, a dismissal
    of the error, or time passing. *)
Inductive Reachable (remote : RemoteStore) (user : option User.t)
  : World -> Prop :=
| Reachable_initial : Reachable remote user initialWorld
| Reachable_perform currentUser op w :
    Reachable remote user w ->
    Reachable remote user (exec (perform remote user currentUser op) w)
| Reachable_filter filterType w :
    Reachable remote user w ->
    Reachable remote user (exec (handleFilterSelect filterType) w)
| Reachable_draft title w :
    Reachable remote user w ->
    Reachable remote user (exec (handleSetTodoTitle title) w)
| Reachable_close w :
    Reachable remote user w ->
    Reachable remote user (exec handleCloseError w)
| Reachable_elapse ms w :
    0 <= ms ->
    Reachable remote user w ->
    Reachable remote user (elapse ms w).

(** A step that keeps the property [P] of worlds. *)
Definition Preserves (P : World -> Prop) (w w' : World) : Prop := P w -> P w'.

(** [visibleTodos] is what the filter effect computes from the current
    [todos] and [filterBy]. *)
Definition VisibleInSync (w : World) : Prop :=
  visibleTodos (st w) = filteredTodos (todos (st w)) (filterBy (st w)).

(** An error on display has a timer pending, and no timer is due later than
    3000 ms from now. *)
Definition Expiring (w : World) : Prop :=
  (status (error (st w)) = true -> timers w <> [])
  /\ Forall (fun due => due <= now w + 3000) (timers w).

(** [m] never throws. *)
Definition Returns {A} (m : M A) : Prop :=
  forall w, exists a, fst (m w) = Normal a.

(** A step that leaves the filter mode and the clock alone. *)
Definition SameMode (w w' : World) : Prop :=
  filterBy (st w') = filterBy (st w) /\ now w' = now w.

(** A step that leaves the draft title and [isAdding] alone. *)
Definition SameDraft (w w' : World) : Prop :=
  todoTitle (st w') = todoTitle (st w) /\ isAdding (st w') = isAdding (st w).

(** A step that leaves the list closed over by [handleToggleAllTodos]
    alone. *)
Definition SameClosure (w w' : World) : Prop :=
  toggleAllTodos w' = toggleAllTodos w.

(** Calls that change the remote store. *)
Definition isMutation (c : Call) : bool :=
  match c with
  | GetTodos _ => false
  | CreateTodo _ _ | UpdateTodo _ _ | DeleteTodo _ => true
  end.

(** Exchanges whose promise was rejected. *)
Definition isRejected (e : Exchange) : bool :=
  match reply e with
  | Rejected => true
  | _ => false
  end.

(** The operations [ops], one after the other. *)
Definition performAll (remote : RemoteStore) (user currentUser : option User.t)
    (ops : list Op) (w : World) : World :=
  fold_left (fun w op => exec (perform remote user currentUser op) w) ops w.

(** [m] talks to the remote store through mutations only, and completes
    normally only if none of them was rejected. *)
Definition Mutates {A} (m : M A) : Prop :=
  forall w,
  exists new,
    log (snd (m w)) = log w ++ new
    /\ forallb isMutation (map call new) = true
    /\ (forall a, fst (m w) = Normal a -> existsb isRejected new = false).

(** [m] sets state only: it returns and sends nothing. *)
Definition Quiet (m : M unit) : Prop :=
  forall w, fst (m w) = Normal tt /\ log (snd (m w)) = log w.

(** At most one exchange, a read of the owner's list. *)
Definition oneRead (user : option User.t) (tail : list Exchange) : Prop :=
  tail = []
  \/ exists u r, user = Some u /\ tail = [mkExchange (GetTodos (User.id u)) r].

(** [m] returns, and sends at most a read of the owner's list. *)
Definition ReadsOnce (user : option User.t) (m : M unit) : Prop :=
  forall w,
    fst (m w) = Normal tt
    /\ exists tail, log (snd (m w)) = log w ++ tail /\ oneRead user tail.

(** The exchanges [new] are mutations followed by at most one read of the
    list, and by none when a mutation was rejected. *)
Definition ReadsLast (user : option User.t) (new : list Exchange) : Prop :=
  exists muts tail,
    new = muts ++ tail
    /\ forallb isMutation (map call muts) = true
    /\ oneRead user tail
    /\ (existsb isRejected muts = true -> tail = []).

(** * Properties *)

(** ** Strings *)

Lemma trimStart_blank (s : jsstring) :
  forallb isWhiteSpace s = true -> trimStart s = [].
Proof.
  induction s as [|c s IH]; simpl; [reflexivity|].
  destruct (isWhiteSpace c); simpl; [exact IH | discriminate].
Qed.

Lemma trimStart_nil_blank (s : jsstring) :
  trimStart s = [] -> forallb isWhiteSpace s = true.
Proof.
  induction s as [|c s IH]; simpl; [reflexivity|].
  destruct (isWhiteSpace c); simpl; [exact IH | discriminate].
Qed.

(** What [trimStart] returns is a suffix of its argument, cut after
    white space only. *)
Lemma trimStart_suffix (s : jsstring) :
  exists p, s = p ++ trimStart s /\ forallb isWhiteSpace p = true.
Proof.
  induction s as [|c s [p [E B]]]; simpl.
  - exists []. split; reflexivity.
  - destruct (isWhiteSpace c) eqn:W.
    + exists (c :: p). simpl. rewrite W, B. split; [congruence | reflexivity].
    + exists []. split; reflexivity.
Qed.

(** [s.trim()] is empty exactly when [s] is empty or white space only. *)
Lemma trim_blank (s : jsstring) :
  trim s = [] <-> forallb isWhiteSpace s = true.
Proof.
  unfold trim, trimEnd. split.
  - intros H.
    assert (R : trimStart (rev (trimStart s)) = []).
    { destruct (trimStart (rev (trimStart s))) as [|c r]; [reflexivity|].
      simpl in H. destruct (rev r); discriminate. }
    apply trimStart_nil_blank in R.
    destruct (trimStart_suffix s) as [p [E B]].
    rewrite E, forallb_app, B. simpl.
    rewrite forallb_forall in R. apply forallb_forall.
    intros x Hx. apply R, in_rev. rewrite rev_involutive. exact Hx.
  - intros H. rewrite (trimStart_blank s H). reflexivity.
Qed.

(** ** FilterView *)

Lemma filter_Subsequence {A} (p : A -> bool) (l : list A) :
  Subsequence (filter p l) l.
Proof.
  induction l as [|x l IH]; simpl; [constructor|].
  destruct (p x); constructor; exact IH.
Qed.

Lemma filter_true {A} (l : list A) : filter (fun _ => true) l = l.
Proof. induction l; simpl; congruence. Qed.

Lemma partition_filter {A} (p : A -> bool) (l : list A) :
  partition p l = (filter p l, filter (fun x => negb (p x)) l).
Proof.
  induction l as [|x l IH]; simpl; [reflexivity|].
  rewrite IH. destruct (p x); reflexivity.
Qed.

Lemma filter_split_Permutation {A} (p : A -> bool) (l : list A) :
  Permutation (filter (fun x => negb (p x)) l ++ filter p l) l.
Proof.
  induction l as [|x l IH]; simpl; [constructor|].
  destruct (p x); simpl.
  - symmetry. apply Permutation_cons_app. symmetry. exact IH.
  - constructor. exact IH.
Qed.

(** C9. The visible list is a pure filter of the full list: under [ALL] it
    is the list itself; under [ACTIVE] it holds exactly the items that are
    not completed and under [COMPLETED] exactly those that are; the two
    split the list by the flag ([List.partition]), no item is in both,
    together they are a rearrangement of the list, and each view keeps the
    order of the list. *)
Theorem filteredTodos_pure_filter (L : list Todo.t) :
  filteredTodos L ALL = L
  /\ (forall t, In t (filteredTodos L ACTIVE)
                <-> In t L /\ Todo.completed t = false)
  /\ (forall t, In t (filteredTodos L COMPLETED)
                <-> In t L /\ Todo.completed t = true)
  /\ partition Todo.completed L
     = (filteredTodos L COMPLETED, filteredTodos L ACTIVE)
  /\ (forall t, ~ (In t (filteredTodos L ACTIVE)
                   /\ In t (filteredTodos L COMPLETED)))
  /\ Permutation (filteredTodos L ACTIVE ++ filteredTodos L COMPLETED) L
  /\ (forall M, Subsequence (filteredTodos L M) L).
Proof.
  unfold filteredTodos. repeat split.
  - apply filter_true.
  - apply filter_In in H. tauto.
  - apply filter_In in H. simpl in H. destruct H as [_ H].
    now apply negb_true_iff.
  - intros [H1 H2]. apply filter_In. simpl. rewrite H2. auto.
  - apply filter_In in H. tauto.
  - apply filter_In in H. tauto.
  - intros [H1 H2]. apply filter_In. auto.
  - apply partition_filter.
  - intros t [H1 H2]. apply filter_In in H1, H2. simpl in *.
    destruct H1 as [_ H1], H2 as [_ H2]. rewrite H2 in H1. discriminate.
  - apply (filter_split_Permutation Todo.completed).
  - intros M. apply filter_Subsequence.
Qed.

(** ** Running a handler *)

(** Unfolds a handler down to the oracle's answers. *)
Ltac run :=
  unfold issued, exec, throws, perform, mount,
    handleAddNewTodo, handleDeleteTodo, handleDeleteCompletedTodos,
    handleToggleTodo, handleToggleAllTodos, toggleAllOf,
    handleChangeTodoTitle, handleCloseError, handleFilterSelect,
    handleSetTodoTitle, loadTodos, showError,
    getTodos, createTodo, updateTodo, deleteTodo, record,
    setTodos, setFilterBy, setError, setTodoTitle, setIsAdding,
    setDeletedTodoIds, setSelectedTodoIds, setTimeout,
    tryCatch, bind, ret, gets, modify in *;
  simpl in *.

Lemma skipn_length_app {A} (l new : list A) :
  skipn (List.length l) (l ++ new) = new.
Proof. induction l; simpl; auto. Qed.

Lemma filter_app_other (id : Z) (l : list Z) :
  filter (fun i => negb (i =? id)) (l ++ [id])
  = filter (fun i => negb (i =? id)) l.
Proof.
  rewrite filter_app. simpl. rewrite Z.eqb_refl. simpl. apply app_nil_r.
Qed.

Lemma count_occ_filter_other (id j : Z) (l : list Z) :
  j <> id ->
  count_occ Z.eq_dec (filter (fun i => negb (i =? id)) l) j
  = count_occ Z.eq_dec l j.
Proof.
  intros N. induction l as [|x l IH]; simpl; [reflexivity|].
  destruct (Z.eqb_spec x id) as [->|Hx]; simpl.
  - destruct (Z.eq_dec id j); [congruence | exact IH].
  - destruct (Z.eq_dec x j); [f_equal|]; exact IH.
Qed.

(** ** add *)

(** C7. With an owner present, submitting a draft title that is empty or
    white space only issues no call to the remote store (so no create),
    raises the error "Title can't be empty", leaves the draft title as it
    was and leaves [isAdding] false; the handler does not throw. *)
Theorem add_blank_title_rejected
    (remote : RemoteStore) (user : option User.t) (u : User.t) (w : World) :
  forallb isWhiteSpace (todoTitle (st w)) = true ->
  let w' := exec (handleAddNewTodo remote user (Some u)) w in
  log w' = log w
  /\ error (st w')
     = {| status := true; message := js "Title can't be empty" |}
  /\ todoTitle (st w') = todoTitle (st w)
  /\ isAdding (st w') = false
  /\ throws (handleAddNewTodo remote user (Some u)) w = false.
Proof.
  intros B. apply trim_blank in B. run. rewrite B. simpl.
  repeat split; reflexivity.
Qed.

(** The drafts [""] and ["   "] on a store that would accept anything. *)
Lemma add_blank_title_rejected_witness :
  let add := handleAddNewTodo (serving []) (Some alice) (Some alice) in
  let spaces := exec (setTodoTitle (js "   ")) initialWorld in
  (forallb isWhiteSpace (todoTitle (st initialWorld)) = true
   /\ forallb isWhiteSpace (todoTitle (st spaces)) = true)
  /\ (log (exec add initialWorld) = []
      /\ message (error (st (exec add initialWorld)))
         = js "Title can't be empty")
  /\ (log (exec add spaces) = []
      /\ message (error (st (exec add spaces)))
         = js "Title can't be empty"
      /\ todoTitle (st (exec add spaces)) = js "   "
      /\ isAdding (st (exec add spaces)) = false).
Proof.
  intros add spaces.
  pose proof (add_blank_title_rejected (serving []) (Some alice) alice
                initialWorld eq_refl) as [L0 [E0 _]].
  pose proof (add_blank_title_rejected (serving []) (Some alice) alice
                spaces eq_refl) as [L1 [E1 [T1 [A1 _]]]].
  split; [split; reflexivity|]. split.
  - split; [exact L0|]. unfold add. rewrite E0. reflexivity.
  - split; [exact L1|]. split; [|split; [exact T1 | exact A1]].
    unfold add. rewrite E1. reflexivity.
Defined.

(** ** toggle *)

(** C10. When the update and the reload of [toggle(id, completed)] both
    succeed, the selected ids afterwards are the prior ones with every
    occurrence of [id] filtered out: [id] is gone, every other id occurs
    as often as before, in the same order. *)
Theorem toggle_success_keeps_other_markers
    (remote : RemoteStore) (u : User.t) (id : Z) (completed : bool)
    (w : World) (t : Todo.t) (l : list Todo.t) :
  let patch := PatchCompleted (negb completed) in
  update_ remote (log w) id patch = Some t ->
  list_ remote (log w ++ [mkExchange (UpdateTodo id patch) (Stored t)])
    (User.id u) = Some l ->
  let w' := exec (handleToggleTodo remote (Some u) id completed) w in
  selectedTodoIds (st w')
  = filter (fun i => negb (i =? id)) (selectedTodoIds (st w))
  /\ ~ In id (selectedTodoIds (st w'))
  /\ (forall j, j <> id ->
        count_occ Z.eq_dec (selectedTodoIds (st w')) j
        = count_occ Z.eq_dec (selectedTodoIds (st w)) j)
  /\ Subsequence (selectedTodoIds (st w')) (selectedTodoIds (st w))
  /\ todos (st w') = l
  /\ error (st w') = error (st w).
Proof.
  intros patch U L. subst patch. run. rewrite U. simpl. rewrite L. simpl.
  rewrite filter_app_other. repeat split.
  - intros H. apply filter_In in H. destruct H as [_ H].
    rewrite Z.eqb_refl in H. discriminate.
  - intros j N. now apply count_occ_filter_other.
  - apply filter_Subsequence.
Qed.

(** Todos 2 and 1 are being toggled; the toggle of 1 comes back. *)
Lemma toggle_success_keeps_other_markers_witness :
  let w := exec (setSelectedTodoIds (fun _ => [2; 1])) (showing [todoA]) in
  let w' := exec (handleToggleTodo (serving [todoA]) (Some alice) 1 false) w in
  selectedTodoIds (st w') = [2] /\ todos (st w') = [todoA].
Proof.
  intros w w'.
  destruct (toggle_success_keeps_other_markers
              (serving [todoA]) alice 1 false w todoA [todoA]
              eq_refl eq_refl) as [S [_ [_ [_ [T _]]]]].
  split; [exact S | exact T].
Defined.

(** ** Relations that every step of a handler maintains *)

Section Maintained.

Variable R : World -> World -> Prop.
Hypothesis R_refl : forall w, R w w.
Hypothesis R_trans : forall w1 w2 w3, R w1 w2 -> R w2 w3 -> R w1 w3.

Lemma Maintains_ret {A} (a : A) : Maintains R (ret a).
Proof. intros w. apply R_refl. Qed.

Lemma Maintains_gets {A} (f : State -> A) : Maintains R (gets f).
Proof. intros w. apply R_refl. Qed.

Lemma Maintains_bind {A B} (m : M A) (k : A -> M B) :
  Maintains R m -> (forall a, Maintains R (k a)) -> Maintains R (bind m k).
Proof.
  intros Hm Hk w. unfold bind. specialize (Hm w).
  destruct (m w) as [[a|] w1]; simpl in *; [|exact Hm].
  apply (R_trans _ w1); [exact Hm | apply Hk].
Qed.

Lemma Maintains_tryCatch {A} (body handler : M A) :
  Maintains R body -> Maintains R handler -> Maintains R (tryCatch body handler).
Proof.
  intros Hb Hh w. unfold tryCatch. specialize (Hb w).
  destruct (body w) as [[a|] w1]; simpl in *; [exact Hb|].
  apply (R_trans _ w1); [exact Hb | apply Hh].
Qed.

Lemma Maintains_promiseAll (tasks : list (M unit)) :
  Forall (Maintains R) tasks -> Maintains R (promiseAll tasks).
Proof.
  induction 1 as [|task rest Ht _ IH]; intros w; simpl.
  - apply R_refl.
  - specialize (Ht w). destruct (task w) as [[[]|] w1]; simpl in *;
      (apply (R_trans _ w1); [exact Ht | apply IH]).
Qed.

Lemma Maintains_if {A} (b : bool) (m1 m2 : M A) :
  Maintains R m1 -> Maintains R m2 -> Maintains R (if b then m1 else m2).
Proof. destruct b; auto. Qed.

End Maintained.

(** ** The cached list follows the successful reads *)

Lemma lastListed_app (a b : list Exchange) :
  lastListed (a ++ b)
  = match lastListed b with
    | Some l => Some l
    | None => lastListed a
    end.
Proof.
  induction a as [|e a IH]; simpl.
  - destruct (lastListed b); reflexivity.
  - rewrite IH. destruct (lastListed b); reflexivity.
Qed.

Lemma Reconciled_refl (w : World) : Reconciled w w.
Proof. exists []. split; [symmetry; apply app_nil_r | reflexivity]. Qed.

Lemma Reconciled_trans (w1 w2 w3 : World) :
  Reconciled w1 w2 -> Reconciled w2 w3 -> Reconciled w1 w3.
Proof.
  intros [n1 [L1 T1]] [n2 [L2 T2]]. exists (n1 ++ n2). split.
  - rewrite L2, L1. symmetry. apply app_assoc.
  - rewrite T2, T1. unfold cacheAfter. rewrite lastListed_app.
    destruct (lastListed n2); reflexivity.
Qed.

(** A step that leaves the log and the cached list alone. *)
Lemma Reconciled_same (w w' : World) :
  log w' = log w -> todos (st w') = todos (st w) -> Reconciled w w'.
Proof.
  intros L T. exists []. split; [rewrite L; symmetry; apply app_nil_r | exact T].
Qed.

(** A step that logs one exchange other than a fulfilled [getTodos]. *)
Lemma Reconciled_exchange (w w' : World) (e : Exchange) :
  log w' = log w ++ [e] -> lastListed [e] = None ->
  todos (st w') = todos (st w) -> Reconciled w w'.
Proof.
  intros L N T. exists [e]. split; [exact L|].
  unfold cacheAfter. rewrite N. exact T.
Qed.

Create HintDb recon.

Lemma Reconciles_setError e : Maintains Reconciled (setError e).
Proof. intros w. now apply Reconciled_same. Qed.

Lemma Reconciles_setTodoTitle t : Maintains Reconciled (setTodoTitle t).
Proof. intros w. now apply Reconciled_same. Qed.

Lemma Reconciles_setIsAdding b : Maintains Reconciled (setIsAdding b).
Proof. intros w. now apply Reconciled_same. Qed.

Lemma Reconciles_setFilterBy f : Maintains Reconciled (setFilterBy f).
Proof. intros w. now apply Reconciled_same. Qed.

Lemma Reconciles_setDeletedTodoIds f : Maintains Reconciled (setDeletedTodoIds f).
Proof. intros w. now apply Reconciled_same. Qed.

Lemma Reconciles_setSelectedTodoIds f : Maintains Reconciled (setSelectedTodoIds f).
Proof. intros w. now apply Reconciled_same. Qed.

Lemma Reconciles_setTimeout d : Maintains Reconciled (setTimeout d).
Proof. intros w. now apply Reconciled_same. Qed.

Lemma Reconciles_createTodo remote title userId :
  Maintains Reconciled (createTodo remote title userId).
Proof.
  intros w. unfold createTodo.
  destruct (create_ remote (log w) title userId);
    now eapply Reconciled_exchange.
Qed.

Lemma Reconciles_updateTodo remote todoId patch :
  Maintains Reconciled (updateTodo remote todoId patch).
Proof.
  intros w. unfold updateTodo.
  destruct (update_ remote (log w) todoId patch);
    now eapply Reconciled_exchange.
Qed.

Lemma Reconciles_deleteTodo remote todoId :
  Maintains Reconciled (deleteTodo remote todoId).
Proof.
  intros w. unfold deleteTodo.
  destruct (delete_ remote (log w) todoId);
    now eapply Reconciled_exchange.
Qed.

#[local] Hint Resolve Reconciled_refl Reconciled_trans
  Reconciles_setError Reconciles_setTodoTitle Reconciles_setIsAdding
  Reconciles_setFilterBy Reconciles_setDeletedTodoIds
  Reconciles_setSelectedTodoIds Reconciles_setTimeout
  Reconciles_createTodo Reconciles_updateTodo Reconciles_deleteTodo
  : recon.

(** Breaks a handler into its steps. *)
Ltac steps refl trans leaf :=
  repeat first
    [ solve [leaf]
    | apply (Maintains_ret _ refl)
    | apply (Maintains_gets _ refl)
    | apply (Maintains_bind _ trans); [| intros ?]
    | apply (Maintains_tryCatch _ trans)
    | apply Maintains_if ].

Ltac reconcile :=
  steps Reconciled_refl Reconciled_trans ltac:(auto with recon).

Lemma Reconciles_showError message : Maintains Reconciled (showError message).
Proof. unfold showError. reconcile. Qed.

(** [getTodos] and the [setTodos] that follows it, taken together. *)
Lemma Reconciles_loadTodos remote user : Maintains Reconciled (loadTodos remote user).
Proof.
  intros w. unfold loadTodos. destruct user as [u|]; [|apply Reconciled_refl].
  unfold tryCatch, bind, getTodos.
  destruct (list_ remote (log w) (User.id u)) as [l|] eqn:L.
  - exists [mkExchange (GetTodos (User.id u)) (Listed l)].
    split; reflexivity.
  - apply (Reconciled_trans _ (record (GetTodos (User.id u)) Rejected w)).
    + now eapply Reconciled_exchange.
    + apply Reconciles_showError.
Qed.

#[local] Hint Resolve Reconciles_showError Reconciles_loadTodos : recon.

Lemma Reconciles_perform remote user currentUser op :
  Maintains Reconciled (perform remote user currentUser op).
Proof.
  destruct op; simpl.
  - auto with recon.
  - unfold handleAddNewTodo. destruct currentUser; reconcile.
  - unfold handleDeleteTodo. reconcile.
  - unfold handleDeleteCompletedTodos. reconcile.
    apply (Maintains_promiseAll _ Reconciled_refl Reconciled_trans).
    apply Forall_map, Forall_forall. intros t _. reconcile.
  - unfold handleToggleTodo. reconcile.
  - intros w. unfold handleToggleAllTodos.
    generalize (toggleAllTodos w). intros captured. revert w.
    unfold toggleAllOf. reconcile.
    apply (Maintains_promiseAll _ Reconciled_refl Reconciled_trans).
    apply Forall_map, Forall_forall. intros t _. reconcile.
  - unfold handleChangeTodoTitle. reconcile.
Qed.

Lemma lastListed_In (exchanges : list Exchange) (l : list Todo.t) :
  lastListed exchanges = Some l ->
  exists userId, In (mkExchange (GetTodos userId) (Listed l)) exchanges.
Proof.
  induction exchanges as [|e rest IH]; simpl; [discriminate|].
  destruct (lastListed rest) as [l'|].
  - intros H. destruct (IH H) as [uid I]. exists uid. now right.
  - destruct e as [[uid| | |] [|l'| |]]; simpl; try discriminate.
    intros H. injection H as ->. exists uid. now left.
Qed.

Lemma elapse_todos (ms : Z) (w : World) :
  todos (st (elapse ms w)) = todos (st w).
Proof.
  unfold elapse. simpl.
  generalize (filter (fun d => d <=? now w + ms) (timers w)) (st w).
  intros due. induction due as [|d due IH]; intros s; simpl; [reflexivity|].
  now rewrite IH.
Qed.

(** C8. The cached [todos] change only by being replaced with what a
    fulfilled [getTodos] returned: after any operation of the engine they
    are the list returned by the last fulfilled [getTodos] the operation
    issued, and are untouched when it issued none; the filter, draft and
    dismiss handlers and the expiry timers leave them alone. When the
    [getTodos] of a reload is rejected, the list keeps its value and the
    error "Unable to load todos" is raised. *)
Theorem todos_follow_successful_reads
    (remote : RemoteStore) (user : option User.t) :
  (forall currentUser op w,
     let w' := exec (perform remote user currentUser op) w in
     let new := issued (perform remote user currentUser op) w in
     log w' = log w ++ new
     /\ todos (st w') = cacheAfter new (todos (st w))
     /\ (todos (st w') = todos (st w)
         \/ exists userId,
              In (mkExchange (GetTodos userId) (Listed (todos (st w')))) new))
  /\ (forall w filterType title ms,
        todos (st (exec (handleFilterSelect filterType) w)) = todos (st w)
        /\ todos (st (exec (handleSetTodoTitle title) w)) = todos (st w)
        /\ todos (st (exec handleCloseError w)) = todos (st w)
        /\ todos (st (elapse ms w)) = todos (st w))
  /\ (forall u w,
        user = Some u ->
        list_ remote (log w) (User.id u) = None ->
        let w' := exec (loadTodos remote user) w in
        todos (st w') = todos (st w)
        /\ error (st w')
           = {| status := true; message := js "Unable to load todos" |}
        /\ issued (loadTodos remote user) w
           = [mkExchange (GetTodos (User.id u)) Rejected]
        /\ throws (loadTodos remote user) w = false).
Proof.
  split; [|split].
  - intros currentUser op w w' new.
    destruct (Reconciles_perform remote user currentUser op w) as [n [L T]].
    fold (exec (perform remote user currentUser op) w) in L, T.
    fold w' in L, T.
    assert (N : new = n).
    { unfold new, issued. fold w'. rewrite L. apply skipn_length_app. }
    rewrite N. split; [exact L|]. split; [exact T|].
    unfold cacheAfter in T. destruct (lastListed n) as [l|] eqn:E.
    + right. rewrite T. now apply lastListed_In.
    + now left.
  - intros w filterType title ms. repeat split. apply elapse_todos.
  - intros u w -> L. run. rewrite L. simpl.
    split; [reflexivity|]. split; [reflexivity|]. split; [|reflexivity].
    apply (skipn_length_app (log w)).
Qed.

(** A reload while the store cannot be read: the list shown stays. *)
Lemma todos_follow_successful_reads_witness :
  let w' := exec (loadTodos listDown (Some alice)) (showing [todoA]) in
  list_ listDown (log (showing [todoA])) (User.id alice) = None
  /\ todos (st w') = [todoA]
  /\ message (error (st w')) = js "Unable to load todos".
Proof.
  intros w'.
  destruct (todos_follow_successful_reads listDown (Some alice))
    as [_ [_ H]].
  destruct (H alice (showing [todoA]) eq_refl eq_refl) as [T [E _]].
  split; [reflexivity|]. split; [exact T|].
  unfold w'. rewrite E. reflexivity.
Defined.

(** ** Operations without an owner *)

Lemma Unowned_refl (w : World) : Unowned w w.
Proof.
  repeat split. exists []. split; [symmetry; apply app_nil_r | constructor].
Qed.

Lemma Unowned_trans (w1 w2 w3 : World) :
  Unowned w1 w2 -> Unowned w2 w3 -> Unowned w1 w3.
Proof.
  intros [T1 [D1 [A1 [n1 [L1 F1]]]]] [T2 [D2 [A2 [n2 [L2 F2]]]]].
  split; [congruence|]. split; [congruence|]. split; [congruence|].
  exists (n1 ++ n2). split.
  - rewrite L2, L1. symmetry. apply app_assoc.
  - apply Forall_app. now split.
Qed.

Lemma Unowned_same (w w' : World) :
  log w' = log w -> todos (st w') = todos (st w) ->
  todoTitle (st w') = todoTitle (st w) -> isAdding (st w') = isAdding (st w) ->
  Unowned w w'.
Proof.
  intros L T D A. repeat split; try assumption.
  exists []. split; [rewrite L; symmetry; apply app_nil_r | constructor].
Qed.

Lemma Unowned_exchange (w : World) (c : Call) (r : Reply) :
  needsOwner c = false -> Unowned w (record c r w).
Proof.
  intros N. repeat split. exists [mkExchange c r].
  split; [reflexivity|]. now repeat constructor.
Qed.

Lemma Unowned_setError e : Maintains Unowned (setError e).
Proof. intros w. now apply Unowned_same. Qed.

Lemma Unowned_setDeletedTodoIds f : Maintains Unowned (setDeletedTodoIds f).
Proof. intros w. now apply Unowned_same. Qed.

Lemma Unowned_setSelectedTodoIds f : Maintains Unowned (setSelectedTodoIds f).
Proof. intros w. now apply Unowned_same. Qed.

Lemma Unowned_setTimeout d : Maintains Unowned (setTimeout d).
Proof. intros w. now apply Unowned_same. Qed.

Lemma Unowned_updateTodo remote todoId patch :
  Maintains Unowned (updateTodo remote todoId patch).
Proof.
  intros w. unfold updateTodo.
  destruct (update_ remote (log w) todoId patch);
    now apply Unowned_exchange.
Qed.

Lemma Unowned_deleteTodo remote todoId :
  Maintains Unowned (deleteTodo remote todoId).
Proof.
  intros w. unfold deleteTodo.
  destruct (delete_ remote (log w) todoId); now apply Unowned_exchange.
Qed.

Lemma Unowned_loadTodos remote : Maintains Unowned (loadTodos remote None).
Proof. intros w. apply Unowned_refl. Qed.

Create HintDb unowned.

#[local] Hint Resolve Unowned_refl Unowned_trans
  Unowned_setError Unowned_setDeletedTodoIds Unowned_setSelectedTodoIds
  Unowned_setTimeout Unowned_updateTodo Unowned_deleteTodo
  Unowned_loadTodos : unowned.

Ltac unowned := steps Unowned_refl Unowned_trans ltac:(auto with unowned).

Lemma Unowned_showError message : Maintains Unowned (showError message).
Proof. unfold showError. unowned. Qed.

#[local] Hint Resolve Unowned_showError : unowned.

Lemma Unowned_perform remote op :
  Maintains Unowned (perform remote None None op).
Proof.
  destruct op; simpl.
  - exact (Unowned_loadTodos remote).
  - intros w. apply Unowned_refl.
  - unfold handleDeleteTodo. unowned.
  - unfold handleDeleteCompletedTodos. unowned.
    apply (Maintains_promiseAll _ Unowned_refl Unowned_trans).
    apply Forall_map, Forall_forall. intros t _. unowned.
  - unfold handleToggleTodo. unowned.
  - intros w. unfold handleToggleAllTodos.
    generalize (toggleAllTodos w). intros captured. revert w.
    unfold toggleAllOf. unowned.
    apply (Maintains_promiseAll _ Unowned_refl Unowned_trans).
    apply Forall_map, Forall_forall. intros t _. unowned.
  - unfold handleChangeTodoTitle. unowned.
Qed.

(** ** remove *)

(** C5, as the component has it. When the delete of [remove(id)] is
    rejected, the error "Unable to delete a todo" is raised and the pending
    ids are reset to empty whatever they held; no reload follows. A reload
    that fails after a fulfilled delete is caught inside the reload: the
    error is "Unable to load todos" and the pending ids keep their prior
    content followed by [id]. *)
Theorem remove_failure_pending_markers
    (remote : RemoteStore) (user : option User.t) (id : Z) (w : World) :
  let remove := handleDeleteTodo remote user id in
  (delete_ remote (log w) id = false ->
     deletedTodoIds (st (exec remove w)) = []
     /\ error (st (exec remove w))
        = {| status := true; message := js "Unable to delete a todo" |}
     /\ issued remove w = [mkExchange (DeleteTodo id) Rejected]
     /\ todos (st (exec remove w)) = todos (st w)
     /\ throws remove w = false)
  /\ (forall u,
        user = Some u ->
        delete_ remote (log w) id = true ->
        list_ remote (log w ++ [mkExchange (DeleteTodo id) Removed])
          (User.id u) = None ->
        deletedTodoIds (st (exec remove w)) = deletedTodoIds (st w) ++ [id]
        /\ error (st (exec remove w))
           = {| status := true; message := js "Unable to load todos" |}
        /\ todos (st (exec remove w)) = todos (st w)
        /\ throws remove w = false).
Proof.
  intros remove. subst remove. split.
  - intros D. run. rewrite D. simpl.
    split; [reflexivity|]. split; [reflexivity|]. split; [|split; reflexivity].
    apply (skipn_length_app (log w)).
  - intros u -> D L. run. rewrite D. simpl. rewrite L. simpl.
    repeat split.
Qed.

(** Todos 5 and 1 are pending. Offline, removing 1 clears both markers;
    when only the read is down, both stay. *)
Lemma remove_failure_pending_markers_witness :
  let w := exec (setDeletedTodoIds (fun _ => [5])) (showing [todoA]) in
  (delete_ offline (log w) 1 = false
   /\ deletedTodoIds (st (exec (handleDeleteTodo offline (Some alice) 1) w))
      = [])
  /\ (delete_ listDown (log w) 1 = true
      /\ deletedTodoIds
           (st (exec (handleDeleteTodo listDown (Some alice) 1) w))
         = [5; 1]).
Proof.
  intros w. split.
  - split; [reflexivity|].
    apply (remove_failure_pending_markers offline (Some alice) 1 w).
    reflexivity.
  - split; [reflexivity|].
    apply (remove_failure_pending_markers listDown (Some alice) 1 w)
      with (u := alice); reflexivity.
Defined.

(** C5 fails when it is the reload that fails: the delete of todo 1 is
    fulfilled, the read is rejected, and the component shows "Unable to
    load todos" with id 1 still pending. *)
Lemma remove_reload_failure_keeps_pending :
  let remove := handleDeleteTodo listDown (Some alice) 1 in
  let w' := exec remove (showing [todoA]) in
  issued remove (showing [todoA])
  = [mkExchange (DeleteTodo 1) Removed; mkExchange (GetTodos 7) Rejected]
  /\ error (st w')
     = {| status := true; message := js "Unable to load todos" |}
  /\ deletedTodoIds (st w') = [1]
  /\ ~ (error (st w')
        = {| status := true; message := js "Unable to delete a todo" |}
        /\ deletedTodoIds (st w') = []).
Proof.
  intros remove w'. split; [reflexivity|]. split; [reflexivity|].
  split; [reflexivity|]. intros [_ H]. discriminate H.
Qed.

(** ** Batches *)

Lemma logged_nil (w : World) : logged [] w = w.
Proof. destruct w. unfold logged. simpl. now rewrite app_nil_r. Qed.

Lemma logged_logged (a b : list Exchange) (w : World) :
  logged b (logged a w) = logged (a ++ b) w.
Proof. unfold logged. simpl. now rewrite app_assoc. Qed.

(** The deletes of [removeCompleted]: one call per completed todo, in list
    order, and nothing else changes; the batch is rejected exactly when one
    of the deletes is. *)
Lemma deleteBatch_run (remote : RemoteStore) (l : list Todo.t) (w : World) :
  let batch :=
    promiseAll
      (map (fun todo =>
              if Todo.completed todo
              then deleteTodo remote (Todo.id todo)
              else ret tt)
           l) in
  exists new,
    snd (batch w) = logged new w
    /\ map call new = map DeleteTodo (map Todo.id (filter Todo.completed l))
    /\ match fst (batch w) with
       | Normal _ => Forall (fun e => reply e = Removed) new
       | Throw => In Rejected (map reply new)
       end.
Proof.
  simpl.
  set (task := fun todo : Todo.t =>
                 if Todo.completed todo
                 then deleteTodo remote (Todo.id todo)
                 else ret tt).
  revert w. induction l as [|t l IH]; intros w; simpl.
  - exists []. now rewrite logged_nil.
  - assert (Et : task t w
                 = if Todo.completed t
                   then deleteTodo remote (Todo.id t) w
                   else (Normal tt, w)).
    { unfold task. now destruct (Todo.completed t). }
    rewrite Et. clear Et. destruct (Todo.completed t); simpl; [|apply IH].
    unfold deleteTodo, record.
    destruct (delete_ remote (log w) (Todo.id t)).
    + fold (logged [mkExchange (DeleteTodo (Todo.id t)) Removed] w).
      destruct (IH (logged [mkExchange (DeleteTodo (Todo.id t)) Removed] w))
        as [new [W [C F]]].
      exists (mkExchange (DeleteTodo (Todo.id t)) Removed :: new).
      rewrite W, logged_logged. split; [reflexivity|].
      split; [simpl; now rewrite C|].
      destruct (fst _); [now constructor | now right].
    + fold (logged [mkExchange (DeleteTodo (Todo.id t)) Rejected] w).
      destruct (IH (logged [mkExchange (DeleteTodo (Todo.id t)) Rejected] w))
        as [new [W [C F]]].
      exists (mkExchange (DeleteTodo (Todo.id t)) Rejected :: new).
      simpl. rewrite W, logged_logged. split; [reflexivity|].
      split; [simpl; now rewrite C | now left].
Qed.

(** [removeCompleted], cut at the end of its batch of deletes: the pending
    ids are set, the deletes are logged, and then either the reload runs or
    the [catch] block does. *)
Lemma removeCompleted_run
    (remote : RemoteStore) (user : option User.t) (w : World) :
  let completedTodoIds := map Todo.id (filter Todo.completed (todos (st w))) in
  let w0 := exec (setDeletedTodoIds (fun _ => completedTodoIds)) w in
  exists new,
    map call new = map DeleteTodo completedTodoIds
    /\ ((Forall (fun e => reply e = Removed) new
         /\ handleDeleteCompletedTodos remote user w
            = loadTodos remote user (logged new w0))
        \/ (In Rejected (map reply new)
            /\ handleDeleteCompletedTodos remote user w
               = (showError (js "Unable to delete a todo") ;;
                  setSelectedTodoIds (fun _ => [])) (logged new w0))).
Proof.
  intros ids w0.
  destruct (deleteBatch_run remote (todos (st w)) w0) as [new [W [C F]]].
  exists new. split; [exact C|].
  assert (L : forall w1, fst (loadTodos remote user w1) = Normal tt).
  { intros w1. unfold loadTodos. destruct user as [u|]; [|reflexivity].
    unfold tryCatch, bind, getTodos. now destruct (list_ remote _ _). }
  assert (E : handleDeleteCompletedTodos remote user w
              = tryCatch
                  (promiseAll
                     (map (fun todo =>
                             if Todo.completed todo
                             then deleteTodo remote (Todo.id todo)
                             else ret tt)
                          (todos (st w))) ;;
                   loadTodos remote user)
                  (showError (js "Unable to delete a todo") ;;
                   setSelectedTodoIds (fun _ => [])) w0) by reflexivity.
  rewrite E. clear E. unfold tryCatch. unfold bind at 1 3.
  destruct (promiseAll _ w0) as [[[]|] w1]; simpl in W, F; subst w1.
  - left. split; [exact F|]. specialize (L (logged new w0)).
    now destruct (loadTodos remote user (logged new w0)) as [[[]|] w2].
  - right. split; [exact F | reflexivity].
Qed.

(** What a reload leaves alone, and what it may log. *)
Lemma loadTodos_frame (remote : RemoteStore) (user : option User.t) (w : World) :
  let w' := exec (loadTodos remote user) w in
  deletedTodoIds (st w') = deletedTodoIds (st w)
  /\ selectedTodoIds (st w') = selectedTodoIds (st w)
  /\ todoTitle (st w') = todoTitle (st w)
  /\ isAdding (st w') = isAdding (st w)
  /\ exists tail,
       log w' = log w ++ tail
       /\ Forall (fun e => exists userId, call e = GetTodos userId) tail.
Proof.
  run. destruct user as [u|]; simpl.
  - destruct (list_ remote (log w) (User.id u)); simpl;
      repeat split; eexists; (split; [reflexivity|]);
      repeat constructor; eexists; reflexivity.
  - repeat split. exists []. split; [symmetry; apply app_nil_r | constructor].
Qed.

(** ** removeCompleted *)

(** C4. When one of the deletes issued by [removeCompleted] is rejected,
    the error "Unable to delete a todo" is raised and the selected ids are
    cleared, while the pending ids are left as they were set up front: the
    ids of the completed todos, the rejected one among them. No reload
    follows and the handler does not throw. *)
Theorem removeCompleted_failure_clears_selected
    (remote : RemoteStore) (user : option User.t) (w : World) (id : Z) :
  let removeCompleted := handleDeleteCompletedTodos remote user in
  In (mkExchange (DeleteTodo id) Rejected) (issued removeCompleted w) ->
  let w' := exec removeCompleted w in
  error (st w')
  = {| status := true; message := js "Unable to delete a todo" |}
  /\ selectedTodoIds (st w') = []
  /\ deletedTodoIds (st w')
     = map Todo.id (filter Todo.completed (todos (st w)))
  /\ In id (deletedTodoIds (st w'))
  /\ todos (st w') = todos (st w)
  /\ map call (issued removeCompleted w)
     = map DeleteTodo (deletedTodoIds (st w'))
  /\ throws removeCompleted w = false.
Proof.
  intros removeCompleted I w'. subst w'. subst removeCompleted.
  unfold issued, exec, throws in *.
  destruct (removeCompleted_run remote user w) as [new [C [[F E] | [F E]]]];
    rewrite E in *; clear E.
  - exfalso.
    destruct (loadTodos_frame remote user
                (logged new
                   (exec (setDeletedTodoIds
                            (fun _ => map Todo.id
                                        (filter Todo.completed (todos (st w)))))
                      w)))
      as [_ [_ [_ [_ [tail [L T]]]]]].
    unfold exec in L at 1. rewrite L in I. simpl in I.
    rewrite <- app_assoc, skipn_length_app in I.
    apply in_app_or in I. destruct I as [I|I].
    + rewrite Forall_forall in F. specialize (F _ I). discriminate F.
    + rewrite Forall_forall in T. destruct (T _ I) as [uid U]. discriminate U.
  - simpl in *. rewrite skipn_length_app in *.
    split; [reflexivity|]. split; [reflexivity|]. split; [reflexivity|].
    split; [|split; [reflexivity | split; [exact C | reflexivity]]].
    apply (in_map call) in I. rewrite C in I. simpl in I.
    apply in_map_iff in I. destruct I as [j [J I]]. now injection J as <-.
Qed.

(** Offline, with the completed todo 2 in the list. *)
Lemma removeCompleted_failure_clears_selected_witness :
  let w := exec (setSelectedTodoIds (fun _ => [1])) (showing [todoA; todoB]) in
  let w' := exec (handleDeleteCompletedTodos offline (Some alice)) w in
  In (mkExchange (DeleteTodo 2) Rejected)
    (issued (handleDeleteCompletedTodos offline (Some alice)) w)
  /\ message (error (st w')) = js "Unable to delete a todo"
  /\ selectedTodoIds (st w') = []
  /\ deletedTodoIds (st w') = [2].
Proof.
  intros w w'.
  assert (I : In (mkExchange (DeleteTodo 2) Rejected)
                (issued (handleDeleteCompletedTodos offline (Some alice)) w))
    by (left; reflexivity).
  destruct (removeCompleted_failure_clears_selected
              offline (Some alice) w 2 I) as [E [S [D _]]].
  split; [exact I|]. split; [|split; [exact S | exact D]].
  unfold w'. rewrite E. reflexivity.
Defined.

(** ** toggleAll *)

(** The updates of [toggleAll] on the list it closes over, [all] being its
    [isEachTodoCompleted]: one update per todo that is not completed (or per
    todo, when [all]), in list order, each marking its todo as selected;
    the cached list is not touched. *)
Lemma toggleBatch_run
    (remote : RemoteStore) (all : bool) (l : list Todo.t) (w : World) :
  let toggled := filter (fun todo => negb (Todo.completed todo) || all) l in
  let w' :=
    exec
      (promiseAll
         (map (fun todo =>
                 if negb (Todo.completed todo) || all
                 then
                   setSelectedTodoIds
                     (fun currentTodoIds =>
                        currentTodoIds ++ [Todo.id todo]) ;;
                   updateTodo remote (Todo.id todo)
                     (PatchCompleted (negb (Todo.completed todo))) ;;
                   ret tt
                 else ret tt)
              l))
      w in
  todos (st w') = todos (st w)
  /\ selectedTodoIds (st w') = selectedTodoIds (st w) ++ map Todo.id toggled
  /\ exists new,
       log w' = log w ++ new
       /\ map call new
          = map (fun todo =>
                   UpdateTodo (Todo.id todo)
                     (PatchCompleted (negb (Todo.completed todo))))
              toggled.
Proof.
  simpl.
  set (task := fun todo : Todo.t =>
                 if negb (Todo.completed todo) || all then _ else _).
  revert w. induction l as [|t l IH]; intros w.
  - simpl. split; [reflexivity|]. split; [now rewrite app_nil_r|].
    exists []. now rewrite app_nil_r.
  - simpl map. unfold exec. simpl promiseAll.
    assert (Et : exists r w1,
               task t w = (r, w1)
               /\ todos (st w1) = todos (st w)
               /\ selectedTodoIds (st w1)
                  = selectedTodoIds (st w)
                    ++ map Todo.id
                         (filter (fun todo =>
                                    negb (Todo.completed todo) || all) [t])
               /\ exists new,
                    log w1 = log w ++ new
                    /\ map call new
                       = map (fun todo =>
                                UpdateTodo (Todo.id todo)
                                  (PatchCompleted (negb (Todo.completed todo))))
                           (filter (fun todo =>
                                      negb (Todo.completed todo) || all) [t])).
    { unfold task. simpl. destruct (negb (Todo.completed t) || all).
      - unfold bind, setSelectedTodoIds, updateTodo, record, ret. simpl.
        destruct (update_ remote (log w) (Todo.id t) _);
          do 2 eexists; (split; [reflexivity|]); simpl;
          (split; [reflexivity|]); (split; [reflexivity|]);
          eexists; split; reflexivity.
      - do 2 eexists. split; [reflexivity|]. simpl.
        split; [reflexivity|]. split; [now rewrite app_nil_r|].
        exists []. now rewrite app_nil_r. }
    destruct Et as [r [w1 [Et [T1 [S1 [n1 [L1 C1]]]]]]]. rewrite Et.
    destruct (IH w1) as [T2 [S2 [n2 [L2 C2]]]]. unfold exec in T2, S2, L2.
    assert (G : snd (let (c, w') := (r, w1) in
                     match c with
                     | Normal _ => promiseAll (map task l) w'
                     | Throw => (Throw, snd (promiseAll (map task l) w'))
                     end)
                = snd (promiseAll (map task l) w1)).
    { destruct r as [[]|]; reflexivity. }
    rewrite G. clear G.
    simpl in S1, C1. split; [congruence|]. split.
    + rewrite S2, S1. destruct (negb (Todo.completed t) || all); simpl;
        now rewrite <- app_assoc.
    + exists (n1 ++ n2). split.
      * rewrite L2, L1. symmetry. apply app_assoc.
      * rewrite map_app, C1, C2.
        now destruct (negb (Todo.completed t) || all).
Qed.

(** A reload never throws: it catches its own failure. *)
Lemma loadTodos_returns (remote : RemoteStore) (user : option User.t) (w : World) :
  fst (loadTodos remote user w) = Normal tt.
Proof.
  unfold loadTodos. destruct user as [u|]; [|reflexivity].
  unfold tryCatch, bind, getTodos. now destruct (list_ remote _ _).
Qed.

Lemma toggled_updates (l : list Todo.t) :
  map (fun todo =>
         UpdateTodo (Todo.id todo) (PatchCompleted (negb (Todo.completed todo))))
    (filter (fun todo => negb (Todo.completed todo) || isEachTodoCompleted l) l)
  = toggleAllUpdates l.
Proof.
  unfold toggleAllUpdates, isEachTodoCompleted.
  destruct (forallb Todo.completed l) eqn:E.
  - rewrite forallb_forall in E.
    rewrite (filter_ext (fun todo => negb (Todo.completed todo) || true)
               (fun _ => true)) by (intros; apply orb_true_r).
    rewrite filter_true. apply map_ext_in. intros t I. now rewrite (E t I).
  - rewrite (filter_ext (fun todo => negb (Todo.completed todo) || false)
               (fun todo => negb (Todo.completed todo)))
      by (intros; apply orb_false_r).
    apply map_ext_in. intros t I. apply filter_In in I.
    destruct I as [_ I]. now rewrite I.
Qed.

Lemma toggleAllUpdates_isUpdate (l : list Todo.t) :
  forallb isUpdate (toggleAllUpdates l) = true.
Proof.
  unfold toggleAllUpdates. destruct (forallb Todo.completed l).
  - induction l; simpl; auto.
  - induction (filter _ l); simpl; auto.
Qed.

Lemma filter_isUpdate_updates (new tail : list Exchange) :
  forallb isUpdate (map call new) = true ->
  Forall (fun e => exists userId, call e = GetTodos userId) tail ->
  filter isUpdate (map call (new ++ tail)) = map call new.
Proof.
  intros C T. rewrite map_app, filter_app.
  replace (filter isUpdate (map call tail)) with (@nil Call).
  - rewrite app_nil_r. induction (map call new) as [|c cs IH]; simpl in *;
      [reflexivity|].
    apply andb_prop in C. destruct C as [C1 C2]. rewrite C1. f_equal. auto.
  - induction T as [|e tail [uid U] _ IH]; simpl; [reflexivity|].
    now rewrite U.
Qed.

(** The body of [toggleAll] on the list [l] it closes over: the selected
    ids end up empty, whatever fails, and the updates sent are those the
    specification asks for [l]. *)
Lemma toggleAllOf_run
    (remote : RemoteStore) (user : option User.t) (l : list Todo.t) (w : World) :
  selectedTodoIds (st (exec (toggleAllOf remote user l) w)) = []
  /\ updatesIssued (toggleAllOf remote user l) w = toggleAllUpdates l.
Proof.
  destruct (toggleBatch_run remote (isEachTodoCompleted l) l w)
    as [_ [_ [new [L C]]]].
  rewrite toggled_updates in C. unfold exec in L.
  unfold updatesIssued, issued, exec.
  remember (toggleAllOf remote user l w) as r eqn:R.
  unfold toggleAllOf, tryCatch in R. unfold bind at 1 in R.
  destruct (promiseAll _ w) as [[[]|] w1]; simpl in L.
  - unfold bind at 1 in R.
    pose proof (loadTodos_returns remote user w1) as N.
    destruct (loadTodos_frame remote user w1) as [_ [_ [_ [_ [tail [L1 T]]]]]].
    unfold exec in L1.
    destruct (loadTodos remote user w1) as [[[]|] w2]; [|discriminate N].
    subst r. simpl in *. split; [reflexivity|].
    rewrite L1, L, <- app_assoc, skipn_length_app.
    rewrite filter_isUpdate_updates; [exact C | | exact T].
    rewrite C. apply toggleAllUpdates_isUpdate.
  - subst r. simpl. split; [reflexivity|].
    rewrite L, skipn_length_app, <- (app_nil_r new).
    rewrite filter_isUpdate_updates; [exact C | | constructor].
    rewrite C. apply toggleAllUpdates_isUpdate.
Qed.

(** When the handler bound to the button closes over the current list, it
    sends the updates the specification asks for that list. *)
Lemma toggleAll_fresh_updates
    (remote : RemoteStore) (user : option User.t) (w : World) :
  toggleAllTodos w = todos (st w) ->
  updatesIssued (handleToggleAllTodos remote user) w
  = toggleAllUpdates (todos (st w)).
Proof.
  intros F.
  change (updatesIssued (handleToggleAllTodos remote user) w)
    with (updatesIssued (toggleAllOf remote user (toggleAllTodos w)) w).
  rewrite F. apply toggleAllOf_run.
Qed.

(** C6 at the first click. The component is mounted and the first read
    returns one todo that is not completed; [toggleAll] is to send the
    update completing it, but the handler still closes over the empty list
    of the first render and sends no update at all: it only reloads. *)
Theorem toggleAll_after_mount_sends_nothing :
  let remote := serving [todoA] in
  let w := exec (mount remote (Some alice)) initialWorld in
  todos (st w) = [todoA]
  /\ toggleAllUpdates (todos (st w)) = [UpdateTodo 1 (PatchCompleted true)]
  /\ toggleAllTodos w = []
  /\ updatesIssued (handleToggleAllTodos remote (Some alice)) w = []
  /\ map call (issued (handleToggleAllTodos remote (Some alice)) w)
     = [GetTodos 7].
Proof. repeat split. Qed.

(** ** The marker sets after an operation *)

(** C1, as the component has it. After a [remove(id)] whose delete and
    reload both succeed, the list is the one the store returned, the error
    state and its timers are untouched, and [id] is still pending: the
    pending ids are the prior ones followed by [id]. [removeCompleted]
    leaves the pending ids equal to the ids of the completed todos, however
    it ends. The selected ids no longer hold [id] after [toggle(id, _)],
    and are empty after [toggleAll] and [rename], however they end. *)
Theorem markers_after_operations
    (remote : RemoteStore) (user : option User.t) (w : World) :
  (forall u id l,
     user = Some u ->
     delete_ remote (log w) id = true ->
     list_ remote (log w ++ [mkExchange (DeleteTodo id) Removed]) (User.id u)
     = Some l ->
     let w' := exec (handleDeleteTodo remote user id) w in
     todos (st w') = l
     /\ deletedTodoIds (st w') = deletedTodoIds (st w) ++ [id]
     /\ In id (deletedTodoIds (st w'))
     /\ error (st w') = error (st w)
     /\ timers w' = timers w
     /\ throws (handleDeleteTodo remote user id) w = false)
  /\ deletedTodoIds (st (exec (handleDeleteCompletedTodos remote user) w))
     = map Todo.id (filter Todo.completed (todos (st w)))
  /\ (forall id completed,
        ~ In id (selectedTodoIds
                   (st (exec (handleToggleTodo remote user id completed) w))))
  /\ selectedTodoIds (st (exec (handleToggleAllTodos remote user) w)) = []
  /\ (forall id title,
        selectedTodoIds
          (st (exec (handleChangeTodoTitle remote user id title) w)) = []).
Proof.
  split; [|split; [|split; [|split]]].
  - intros u id l -> D L. run. rewrite D. simpl. rewrite L. simpl.
    split; [reflexivity|]. split; [reflexivity|].
    split; [apply in_or_app; right; now left|]. repeat split.
  - unfold exec.
    destruct (removeCompleted_run remote user w) as [new [_ [[_ E] | [_ E]]]];
      rewrite E; [|reflexivity].
    destruct (loadTodos_frame remote user
                (logged new
                   (exec (setDeletedTodoIds
                            (fun _ => map Todo.id
                                        (filter Todo.completed (todos (st w)))))
                      w)))
      as [D _].
    unfold exec in D at 1. rewrite D. reflexivity.
  - intros id completed. unfold exec, handleToggleTodo, tryCatch.
    unfold bind at 1. simpl. unfold bind at 1. unfold updateTodo at 1.
    destruct (update_ remote _ id _) as [t|]; [|simpl; auto].
    unfold bind at 1.
    match goal with
    | |- context [loadTodos remote user ?w1] =>
        pose proof (loadTodos_returns remote user w1) as N;
        destruct (loadTodos remote user w1) as [[[]|] w2]; [|discriminate N]
    end.
    simpl. intros I. apply filter_In in I. destruct I as [_ I].
    rewrite Z.eqb_refl in I. discriminate I.
  - change (exec (handleToggleAllTodos remote user) w)
      with (exec (toggleAllOf remote user (toggleAllTodos w)) w).
    apply toggleAllOf_run.
  - intros id title. unfold exec, handleChangeTodoTitle, tryCatch.
    unfold bind at 1. simpl. unfold bind at 1. unfold updateTodo at 1.
    destruct (update_ remote _ id _) as [t|]; [|reflexivity].
    unfold bind at 1.
    match goal with
    | |- context [loadTodos remote user ?w1] =>
        pose proof (loadTodos_returns remote user w1) as N;
        destruct (loadTodos remote user w1) as [[[]|] w2]; [|discriminate N]
    end.
    reflexivity.
Qed.

(** The list holds todo 1 only; it is removed and the store then returns
    the empty list. *)
Lemma markers_after_operations_witness :
  let w := showing [todoA] in
  let w' := exec (handleDeleteTodo (serving []) (Some alice) 1) w in
  (delete_ (serving []) (log w) 1 = true
   /\ list_ (serving []) (log w ++ [mkExchange (DeleteTodo 1) Removed]) 7
      = Some [])
  /\ todos (st w') = []
  /\ deletedTodoIds (st w') = [1]
  /\ error (st w') = noError.
Proof.
  intros w w'.
  destruct (markers_after_operations (serving []) (Some alice) w) as [H _].
  destruct (H alice 1 [] eq_refl eq_refl eq_refl) as [T [D [_ [E _]]]].
  split; [split; reflexivity|]. split; [exact T|]. split; [exact D | exact E].
Defined.

(** C1 fails in its own scenario: the delete and the reload succeed, the
    list becomes empty and no error is raised, but id 1 stays pending. *)
Lemma remove_success_leaves_id_pending :
  let remove := handleDeleteTodo (serving []) (Some alice) 1 in
  let w' := exec remove (showing [todoA]) in
  issued remove (showing [todoA])
  = [mkExchange (DeleteTodo 1) Removed; mkExchange (GetTodos 7) (Listed [])]
  /\ deletedTodoIds (st w') = [1]
  /\ ~ (todos (st w') = []
        /\ deletedTodoIds (st w') = []
        /\ status (error (st w')) = false).
Proof.
  intros remove w'. split; [reflexivity|]. split; [reflexivity|].
  intros [_ [H _]]. discriminate H.
Qed.

(** ** ErrorNotifier *)

(** C2, as the component has it. Let no timer be pending, [A] be raised,
    and [B] be raised [d1] ms later, before the 3000 ms of [A] are over.
    Then only [B] shows. No timer is cancelled or restarted: both are
    pending, and the one of [A] clears the error. So [d2] ms after the
    raise of [B] the error is still active with [B] when less than 3000 ms
    have passed since the raise of [A], and inactive, with nothing else
    done, from then on; in particular 3000 ms after the raise of [B]. *)
Theorem second_raise_expires_with_first_timer
    (A B : jsstring) (w : World) (d1 d2 : Z) :
  timers w = [] ->
  0 <= d1 < 3000 ->
  0 <= d2 ->
  let raisedB := exec (showError B) (elapse d1 (exec (showError A) w)) in
  error (st raisedB) = {| status := true; message := B |}
  /\ timers raisedB = [now w + 3000; now w + d1 + 3000]
  /\ (d1 + d2 < 3000 ->
        error (st (elapse d2 raisedB)) = {| status := true; message := B |})
  /\ (3000 <= d1 + d2 -> error (st (elapse d2 raisedB)) = noError)
  /\ (3000 <= d2 ->
        error (st (elapse d2 raisedB)) = noError
        /\ timers (elapse d2 raisedB) = []).
Proof.
  intros T D1 D2 raisedB. subst raisedB.
  unfold exec, showError, bind, setError, setTimeout, modify, elapse.
  simpl. rewrite T. simpl.
  destruct (Z.leb_spec (now w + 3000) (now w + d1)) as [H|H]; [lia|].
  simpl. split; [reflexivity|]. split; [reflexivity|].
  split; [|split].
  - intros S.
    destruct (Z.leb_spec (now w + 3000) (now w + d1 + d2)); [lia|].
    destruct (Z.leb_spec (now w + d1 + 3000) (now w + d1 + d2)); [lia|].
    reflexivity.
  - intros S.
    destruct (Z.leb_spec (now w + 3000) (now w + d1 + d2)); [|lia].
    destruct (Z.leb_spec (now w + d1 + 3000) (now w + d1 + d2)); reflexivity.
  - intros S.
    destruct (Z.leb_spec (now w + 3000) (now w + d1 + d2)); [|lia].
    destruct (Z.leb_spec (now w + d1 + 3000) (now w + d1 + d2)); [|lia].
    split; reflexivity.
Qed.

(** "A" at 0 ms and "B" at 1000 ms: "B" shows at 2999 ms, nothing at
    3000 ms. *)
Lemma second_raise_expires_with_first_timer_witness :
  let raisedB :=
    exec (showError (js "B"))
      (elapse 1000 (exec (showError (js "A")) initialWorld)) in
  (timers initialWorld = [] /\ 0 <= 1000 < 3000 /\ 0 <= 2000)
  /\ error (st raisedB) = {| status := true; message := js "B" |}
  /\ error (st (elapse 1999 raisedB))
     = {| status := true; message := js "B" |}
  /\ error (st (elapse 2000 raisedB)) = noError.
Proof.
  intros raisedB.
  assert (D1 : 0 <= 1000 < 3000) by lia.
  assert (D2 : 0 <= 2000) by lia.
  assert (D3 : 0 <= 1999) by lia.
  destruct (second_raise_expires_with_first_timer
              (js "A") (js "B") initialWorld 1000 2000 eq_refl D1 D2)
    as [E [_ [_ [C _]]]].
  destruct (second_raise_expires_with_first_timer
              (js "A") (js "B") initialWorld 1000 1999 eq_refl D1 D3)
    as [_ [_ [K _]]].
  split; [split; [reflexivity | split; [exact D1 | exact D2]]|].
  split; [exact E|]. split; [apply K; lia | apply C; lia].
Defined.

(** C2 fails: "A" is raised at 0 ms and "B" at 1000 ms; at 3000 ms, only
    2000 ms after the raise of "B", the timer of "A" has cleared the error,
    and the timer of "B" is still pending. *)
Lemma second_raise_does_not_restart_timer :
  let raisedB :=
    exec (showError (js "B"))
      (elapse 1000 (exec (showError (js "A")) initialWorld)) in
  let later := elapse 2000 raisedB in
  error (st raisedB) = {| status := true; message := js "B" |}
  /\ now later = now raisedB + 2000
  /\ timers later = [4000]
  /\ ~ (status (error (st later)) = true).
Proof.
  intros raisedB later. split; [reflexivity|]. split; [reflexivity|].
  split; [reflexivity|]. intros H. discriminate H.
Qed.

(** ** Operations and the owner *)

Lemma filter_isDelete_deletes (new tail : list Exchange) (ids : list Z) :
  map call new = map DeleteTodo ids ->
  Forall (fun e => exists userId, call e = GetTodos userId) tail ->
  filter isDelete (map call (new ++ tail)) = map DeleteTodo ids.
Proof.
  intros C T. rewrite map_app, filter_app, C.
  replace (filter isDelete (map call tail)) with (@nil Call).
  - rewrite app_nil_r. clear C. induction ids; simpl; congruence.
  - induction T as [|e tail [uid U] _ IH]; simpl; [reflexivity|].
    now rewrite U.
Qed.

(** After the answer to the one mutation of a handler: every owner and
    every answer to the read. *)
Ltac every_reload remote user w :=
  simpl; destruct user as [?u|]; simpl;
  try match goal with
      | |- context [list_ remote ?h ?i] => destruct (list_ remote h i); simpl
      end;
  rewrite <- ?app_assoc, ?(skipn_length_app (log w)); reflexivity.




(** * Further properties of the component *)

(** ** Failures stay inside the handlers *)

Lemma Returns_ret {A} (a : A) : Returns (ret a).
Proof. intros w. now exists a. Qed.

Lemma Returns_bind {A B} (m : M A) (k : A -> M B) :
  Returns m -> (forall a, Returns (k a)) -> Returns (bind m k).
Proof.
  intros Hm Hk w. unfold bind. destruct (Hm w) as [a E].
  destruct (m w) as [[a'|] w1]; simpl in E; [|discriminate E]. apply Hk.
Qed.

(** Whatever the body does, the [catch] block decides. *)
Lemma Returns_tryCatch {A} (body handler : M A) :
  Returns handler -> Returns (tryCatch body handler).
Proof.
  intros Hh w. unfold tryCatch.
  destruct (body w) as [[a|] w1]; [now exists a | apply Hh].
Qed.

Lemma Returns_throws (m : M unit) (w : World) :
  Returns m -> throws m w = false.
Proof.
  intros H. unfold throws. destruct (H w) as [a E]. now rewrite E.
Qed.

(** Splits a handler at its [try] and at its sequencing; the setters
    return by computation. *)
Ltac returns :=
  repeat first
    [ solve [intros ?w; eexists; reflexivity]
    | apply Returns_tryCatch
    | apply Returns_bind; [| intros ?] ].

Lemma Returns_perform remote user currentUser op :
  Returns (perform remote user currentUser op).
Proof.
  destruct op; simpl.
  - intros w. exists tt. apply loadTodos_returns.
  - unfold handleAddNewTodo. apply Returns_bind; [returns | intros title].
    destruct currentUser as [u|]; returns.
  - unfold handleDeleteTodo. returns.
  - unfold handleDeleteCompletedTodos. returns.
  - unfold handleToggleTodo. returns.
  - assert (H : forall l, Returns (toggleAllOf remote user l))
      by (intros l; unfold toggleAllOf; returns).
    intros w. apply (H (toggleAllTodos w)).
  - unfold handleChangeTodoTitle. returns.
Qed.

(** X1. No operation of the engine ever throws, whatever the remote store
    answers: a rejected call ends in the handler's [catch] block, and the
    [catch] blocks only set state. *)
Theorem operations_never_throw
    (remote : RemoteStore) (user currentUser : option User.t) (op : Op)
    (w : World) :
  throws (perform remote user currentUser op) w = false.
Proof. apply Returns_throws, Returns_perform. Qed.

(** ** From the setters and the API calls to the operations *)

Section MaintainedByOperations.

Variable R : World -> World -> Prop.
Hypothesis R_refl : forall w, R w w.
Hypothesis R_trans : forall w1 w2 w3, R w1 w2 -> R w2 w3 -> R w1 w3.

Variable remote : RemoteStore.
Variable user currentUser : option User.t.

Hypothesis R_showError : forall message, Maintains R (showError message).

Ltac pieces := steps R_refl R_trans ltac:(auto).

(** A reload maintains what [getTodos], [setTodos] and [showError] do. *)
Lemma Maintains_loadTodos :
  (forall userId, Maintains R (getTodos remote userId)) ->
  (forall next, Maintains R (setTodos next)) ->
  Maintains R (loadTodos remote user).
Proof.
  intros Hget Hset. unfold loadTodos. destruct user as [u|]; pieces.
Qed.

Hypothesis R_loadTodos : Maintains R (loadTodos remote user).

(** [add] maintains what its steps do. *)
Lemma Maintains_add :
  (forall b, Maintains R (setIsAdding b)) ->
  (forall next, Maintains R (setTodoTitle next)) ->
  (forall title userId, Maintains R (createTodo remote title userId)) ->
  Maintains R (handleAddNewTodo remote user currentUser).
Proof.
  intros Hadding Htitle Hcreate. unfold handleAddNewTodo.
  apply (Maintains_bind _ R_trans); [apply (Maintains_gets _ R_refl)|].
  intros title. destruct currentUser as [u|]; pieces.
Qed.

(** Every operation but [add] maintains what the marker setters and the
    update and delete calls do. *)
Lemma Maintains_other_operations :
  (forall f, Maintains R (setDeletedTodoIds f)) ->
  (forall f, Maintains R (setSelectedTodoIds f)) ->
  (forall todoId patch, Maintains R (updateTodo remote todoId patch)) ->
  (forall todoId, Maintains R (deleteTodo remote todoId)) ->
  forall op, op <> Add -> Maintains R (perform remote user currentUser op).
Proof.
  intros Hdeleted Hselected Hupdate Hdelete op N.
  destruct op; simpl.
  - exact R_loadTodos.
  - now destruct N.
  - unfold handleDeleteTodo. pieces.
  - unfold handleDeleteCompletedTodos. pieces.
    apply (Maintains_promiseAll _ R_refl R_trans).
    apply Forall_map, Forall_forall. intros t _. pieces.
  - unfold handleToggleTodo. pieces.
  - assert (H : forall l, Maintains R (toggleAllOf remote user l)).
    { intros l. unfold toggleAllOf. pieces.
      apply (Maintains_promiseAll _ R_refl R_trans).
      apply Forall_map, Forall_forall. intros t _. pieces. }
    intros w. apply (H (toggleAllTodos w)).
  - unfold handleChangeTodoTitle. pieces.
Qed.

(** So does [add], when its own steps do. *)
Lemma Maintains_perform :
  Maintains R (handleAddNewTodo remote user currentUser) ->
  (forall f, Maintains R (setDeletedTodoIds f)) ->
  (forall f, Maintains R (setSelectedTodoIds f)) ->
  (forall todoId patch, Maintains R (updateTodo remote todoId patch)) ->
  (forall todoId, Maintains R (deleteTodo remote todoId)) ->
  forall op, Maintains R (perform remote user currentUser op).
Proof.
  intros Hadd Hdeleted Hselected Hupdate Hdelete op.
  assert (D : op = Add \/ op <> Add)
    by (destruct op; (now left) || (right; discriminate)).
  destruct D as [->|N]; [exact Hadd|].
  now apply Maintains_other_operations.
Qed.

End MaintainedByOperations.

Lemma Preserves_refl (P : World -> Prop) (w : World) : Preserves P w w.
Proof. intros H. exact H. Qed.

Lemma Preserves_trans (P : World -> Prop) (w1 w2 w3 : World) :
  Preserves P w1 w2 -> Preserves P w2 w3 -> Preserves P w1 w3.
Proof. unfold Preserves. auto. Qed.

(** Runs a setter or an API call, whatever the store answers. *)
Ltac primitive :=
  intros ?w;
  unfold Preserves, VisibleInSync, Expiring, SameMode, SameDraft, SameClosure,
    showError, bind,
    getTodos, createTodo, updateTodo, deleteTodo, record,
    setTodos, setFilterBy, setError, setTodoTitle, setIsAdding,
    setDeletedTodoIds, setSelectedTodoIds, setTimeout, modify;
  simpl;
  repeat match goal with
         | |- context [match ?x with _ => _ end] => destruct x; simpl
         end;
  auto.

(** ** Time passing *)

(** When time passes the state changes in one way only: the error is
    cleared, if some timer has come due. *)
Lemma elapse_state (ms : Z) (w : World) :
  st (elapse ms w)
  = match filter (fun d => d <=? now w + ms) (timers w) with
    | [] => st w
    | _ :: _ => withError noError (st w)
    end.
Proof.
  unfold elapse. simpl.
  destruct (filter (fun d => d <=? now w + ms) (timers w)) as [|d due];
    [reflexivity|].
  simpl. induction due as [|d' due IH]; [reflexivity | exact IH].
Qed.

(** ** The visible list follows the list and the filter *)

(** A relation that the setters and the API calls maintain one by one is
    maintained by every operation. *)
Ltac by_primitives refl trans leaf :=
  let S := fresh "S" in
  let L := fresh "L" in
  match goal with
  | |- Maintains ?R (perform ?remote ?user ?current ?op) =>
      assert (S : forall message, Maintains R (showError message))
        by (intros ?; leaf);
      assert (L : Maintains R (loadTodos remote user))
        by (apply (Maintains_loadTodos R refl trans remote user S);
            intros ?; leaf);
      first
        [ apply (Maintains_other_operations R refl trans remote user current
                   S L);
          [ intros; leaf .. | assumption ]
        | apply (Maintains_perform R refl trans remote user current S L);
          [ apply (Maintains_add R refl trans remote user current S L);
            intros; leaf
          | intros; leaf .. ] ]
  end.

Lemma VisibleInSync_perform remote user currentUser op :
  Maintains (Preserves VisibleInSync) (perform remote user currentUser op).
Proof.
  by_primitives (Preserves_refl VisibleInSync) (Preserves_trans VisibleInSync)
    primitive.
Qed.

(** X2. In every world the component can reach, [visibleTodos] is the
    filter of the current [todos] by the current [filterBy]: no operation,
    filter selection, edit, dismissal or timer leaves the visible list
    behind the list it derives from. *)
Theorem visibleTodos_in_sync
    (remote : RemoteStore) (user : option User.t) (w : World) :
  Reachable remote user w ->
  visibleTodos (st w) = filteredTodos (todos (st w)) (filterBy (st w)).
Proof.
  induction 1 as [|current op w _ IH|f w _ IH|t w _ IH|w _ IH|ms w _ _ IH].
  - reflexivity.
  - exact (VisibleInSync_perform remote user current op w IH).
  - reflexivity.
  - exact IH.
  - exact IH.
  - rewrite elapse_state.
    destruct (filter _ (timers w)); exact IH.
Qed.

(** The list is loaded, one todo is toggled and the completed ones are
    filtered. *)
Lemma visibleTodos_in_sync_witness :
  let remote := serving [todoA; todoB] in
  let w :=
    exec (handleFilterSelect COMPLETED)
      (exec (perform remote (Some alice) (Some alice) (Toggle 1 false))
         (exec (perform remote (Some alice) (Some alice) Reload)
            initialWorld)) in
  Reachable remote (Some alice) w
  /\ visibleTodos (st w) = [todoB].
Proof.
  intros remote w.
  assert (H : Reachable remote (Some alice) w)
    by (repeat constructor).
  split; [exact H|].
  rewrite (visibleTodos_in_sync remote (Some alice) w H). reflexivity.
Defined.

(** ** No error outlives its 3000 ms *)

Lemma filter_none_due (p : Z -> bool) (l : list Z) :
  filter p l = [] -> filter (fun d => negb (p d)) l = l.
Proof.
  induction l as [|d l IH]; simpl; [reflexivity|].
  destruct (p d); simpl; [discriminate | intros H; f_equal; auto].
Qed.

Lemma Expiring_perform remote user currentUser op :
  Maintains (Preserves Expiring) (perform remote user currentUser op).
Proof.
  by_primitives (Preserves_refl Expiring) (Preserves_trans Expiring)
    ltac:(primitive;
          try (intros [H1 H2]; split;
               [ intros _ E; apply app_eq_nil in E; destruct E; discriminate
               | apply Forall_app; split; [exact H2 | repeat constructor; lia] ])).
Qed.

Lemma Expiring_elapse (ms : Z) (w : World) :
  0 <= ms -> Expiring w -> Expiring (elapse ms w).
Proof.
  intros P [H1 H2]. split.
  - rewrite elapse_state. unfold elapse. simpl.
    destruct (filter (fun d => d <=? now w + ms) (timers w)) eqn:E.
    + rewrite (filter_none_due _ _ E). exact H1.
    + simpl. discriminate.
  - unfold elapse. simpl. rewrite Forall_forall in *. intros d I.
    apply filter_In in I. destruct I as [I _]. specialize (H2 d I). lia.
Qed.

Lemma Reachable_Expiring remote user w : Reachable remote user w -> Expiring w.
Proof.
  induction 1 as [|current op w _ IH|f w _ IH|t w _ IH|w _ IH|ms w P _ IH].
  - split; [discriminate | constructor].
  - exact (Expiring_perform remote user current op w IH).
  - exact IH.
  - exact IH.
  - destruct IH as [_ H2]. split; [discriminate | exact H2].
  - now apply Expiring_elapse.
Qed.

(** X3. In every world the component can reach, an error cannot stay on
    display: once 3000 ms (or more) pass without a new raise, the error
    state is inactive and no timer is left pending. *)
Theorem error_gone_after_3000ms
    (remote : RemoteStore) (user : option User.t) (w : World) (ms : Z) :
  Reachable remote user w ->
  3000 <= ms ->
  status (error (st (elapse ms w))) = false
  /\ timers (elapse ms w) = [].
Proof.
  intros H P. destruct (Reachable_Expiring remote user w H) as [H1 H2].
  assert (A : Forall (fun d => (d <=? now w + ms) = true) (timers w)).
  { apply (Forall_impl _ (P := fun due => due <= now w + 3000)); [|exact H2].
    intros d B. apply Z.leb_le. lia. }
  split.
  - rewrite elapse_state.
    destruct A as [|d l A _]; simpl; [|now rewrite A].
    destruct (status (error (st w))); [|reflexivity].
    now destruct (H1 eq_refl).
  - unfold elapse. simpl. clear H1 H2. revert A.
    generalize (timers w). intros l A.
    induction A as [|d l A _ IH]; simpl; [reflexivity|]. now rewrite A.
Qed.

(** Offline, a remove raises its error; 3000 ms later it is gone. *)
Lemma error_gone_after_3000ms_witness :
  let w :=
    exec (perform offline (Some alice) (Some alice) (Remove 1)) initialWorld in
  (Reachable offline (Some alice) w /\ 3000 <= 3000)
  /\ status (error (st w)) = true
  /\ status (error (st (elapse 3000 w))) = false.
Proof.
  intros w.
  assert (H : Reachable offline (Some alice) w) by (repeat constructor).
  assert (P : 3000 <= 3000) by lia.
  split; [split; [exact H | exact P]|]. split; [reflexivity|].
  apply (error_gone_after_3000ms offline (Some alice) w 3000 H P).
Defined.

(** ** add *)

(** The guard of [add]: the trimmed draft has length 0 exactly when the
    draft is empty or white space only. *)
Lemma blank_guard (s : jsstring) :
  (List.length (trim s) =? 0)%nat = forallb isWhiteSpace s.
Proof.
  destruct (forallb isWhiteSpace s) eqn:B.
  - apply trim_blank in B. now rewrite B.
  - destruct (trim s) eqn:T; [|reflexivity].
    apply trim_blank in T. congruence.
Qed.

(** X4. With an owner in the current render and a draft that is not blank,
    [add] sends one create carrying the draft as typed (not trimmed) and
    the id of that owner. If the create is fulfilled, the draft is cleared
    and [isAdding] is released, and the memoised reload follows: it reads
    the list of the owner of the first render, and sends nothing when there
    was none; when that read fails the error is the reload's and the list
    keeps its value. If the create is rejected, nothing else is sent, the
    error "Unable to add a todo" is raised, the draft and the list are kept
    and [isAdding] is released. *)
Theorem add_outcomes
    (remote : RemoteStore) (user : option User.t) (u : User.t) (w : World) :
  forallb isWhiteSpace (todoTitle (st w)) = false ->
  let add := handleAddNewTodo remote user (Some u) in
  let create := CreateTodo (todoTitle (st w)) (User.id u) in
  (forall t first l,
     create_ remote (log w) (todoTitle (st w)) (User.id u) = Some t ->
     user = Some first ->
     list_ remote (log w ++ [mkExchange create (Stored t)]) (User.id first)
     = Some l ->
     issued add w
     = [mkExchange create (Stored t);
        mkExchange (GetTodos (User.id first)) (Listed l)]
     /\ todos (st (exec add w)) = l
     /\ todoTitle (st (exec add w)) = []
     /\ isAdding (st (exec add w)) = false
     /\ error (st (exec add w)) = error (st w))
  /\ (forall t first,
        create_ remote (log w) (todoTitle (st w)) (User.id u) = Some t ->
        user = Some first ->
        list_ remote (log w ++ [mkExchange create (Stored t)]) (User.id first)
        = None ->
        issued add w
        = [mkExchange create (Stored t);
           mkExchange (GetTodos (User.id first)) Rejected]
        /\ todos (st (exec add w)) = todos (st w)
        /\ todoTitle (st (exec add w)) = []
        /\ isAdding (st (exec add w)) = false
        /\ error (st (exec add w))
           = {| status := true; message := js "Unable to load todos" |})
  /\ (forall t,
        create_ remote (log w) (todoTitle (st w)) (User.id u) = Some t ->
        user = None ->
        issued add w = [mkExchange create (Stored t)]
        /\ todos (st (exec add w)) = todos (st w)
        /\ todoTitle (st (exec add w)) = []
        /\ isAdding (st (exec add w)) = false
        /\ error (st (exec add w)) = error (st w))
  /\ (create_ remote (log w) (todoTitle (st w)) (User.id u) = None ->
        issued add w = [mkExchange create Rejected]
        /\ todos (st (exec add w)) = todos (st w)
        /\ todoTitle (st (exec add w)) = todoTitle (st w)
        /\ isAdding (st (exec add w)) = false
        /\ error (st (exec add w))
           = {| status := true; message := js "Unable to add a todo" |}).
Proof.
  intros B add create. subst add create.
  split; [|split; [|split]].
  - intros t first l C -> L. run. rewrite blank_guard, B. simpl. rewrite C.
    simpl. rewrite L. simpl.
    rewrite <- app_assoc, (skipn_length_app (log w)). repeat split.
  - intros t first C -> L. run. rewrite blank_guard, B. simpl. rewrite C.
    simpl. rewrite L. simpl.
    rewrite <- app_assoc, (skipn_length_app (log w)). repeat split.
  - intros t C ->. run. rewrite blank_guard, B. simpl. rewrite C. simpl.
    rewrite (skipn_length_app (log w)). repeat split.
  - intros C. run. rewrite blank_guard, B. simpl. rewrite C. simpl.
    rewrite (skipn_length_app (log w)). repeat split.
Qed.

(** The draft " B ": accepted and followed by the read when the owner was
    there at the first render; accepted and followed by nothing when there
    was no owner then; refused offline. *)
Lemma add_outcomes_witness :
  let w := exec (handleSetTodoTitle (js " B ")) initialWorld in
  let served := serving [todoB] in
  forallb isWhiteSpace (todoTitle (st w)) = false
  /\ (map call (issued (handleAddNewTodo served (Some alice) (Some alice)) w)
      = [CreateTodo (js " B ") 7; GetTodos 7]
      /\ todos (st (exec (handleAddNewTodo served (Some alice) (Some alice)) w))
         = [todoB]
      /\ todoTitle
           (st (exec (handleAddNewTodo served (Some alice) (Some alice)) w))
         = [])
  /\ (map call (issued (handleAddNewTodo served None (Some alice)) w)
      = [CreateTodo (js " B ") 7]
      /\ todos (st (exec (handleAddNewTodo served None (Some alice)) w)) = []
      /\ todoTitle (st (exec (handleAddNewTodo served None (Some alice)) w))
         = [])
  /\ todoTitle
       (st (exec (handleAddNewTodo offline (Some alice) (Some alice)) w))
     = js " B ".
Proof.
  intros w served.
  assert (B : forallb isWhiteSpace (todoTitle (st w)) = false) by reflexivity.
  destruct (add_outcomes served (Some alice) alice w B) as [H _].
  destruct (H _ alice [todoB] eq_refl eq_refl eq_refl) as [I [T [D _]]].
  destruct (add_outcomes served None alice w B) as [_ [_ [G _]]].
  destruct (G _ eq_refl eq_refl) as [I' [T' [D' _]]].
  destruct (add_outcomes offline (Some alice) alice w B) as [_ [_ [_ K]]].
  destruct (K eq_refl) as [_ [_ [D'' _]]].
  split; [exact B|]. split; [|split; [|exact D'']].
  - split; [rewrite I; reflexivity | split; [exact T | exact D]].
  - split; [rewrite I'; reflexivity | split; [exact T' | exact D']].
Defined.

(** ** What the operations leave alone *)

Lemma SameMode_refl (w : World) : SameMode w w.
Proof. now split. Qed.

Lemma SameMode_trans (w1 w2 w3 : World) :
  SameMode w1 w2 -> SameMode w2 w3 -> SameMode w1 w3.
Proof. intros [F1 N1] [F2 N2]. split; congruence. Qed.

Lemma SameDraft_refl (w : World) : SameDraft w w.
Proof. now split. Qed.

Lemma SameDraft_trans (w1 w2 w3 : World) :
  SameDraft w1 w2 -> SameDraft w2 w3 -> SameDraft w1 w3.
Proof. intros [T1 A1] [T2 A2]. split; congruence. Qed.

Lemma SameMode_perform remote user currentUser op :
  Maintains SameMode (perform remote user currentUser op).
Proof. by_primitives SameMode_refl SameMode_trans primitive. Qed.

Lemma SameDraft_perform remote user currentUser op :
  op <> Add -> Maintains SameDraft (perform remote user currentUser op).
Proof. intros N. by_primitives SameDraft_refl SameDraft_trans primitive. Qed.

(** X5. No operation of the engine changes the filter mode or takes
    virtual time. No operation but [add] touches the draft title or
    [isAdding]; and [add] either keeps the draft or empties it, and it
    empties it only when the store has accepted a create carrying that
    draft. *)
Theorem draft_cleared_only_by_create
    (remote : RemoteStore) (user currentUser : option User.t) (op : Op)
    (w : World) :
  let w' := exec (perform remote user currentUser op) w in
  (filterBy (st w') = filterBy (st w) /\ now w' = now w)
  /\ (op <> Add ->
        todoTitle (st w') = todoTitle (st w)
        /\ isAdding (st w') = isAdding (st w))
  /\ (todoTitle (st w') = todoTitle (st w)
      \/ (op = Add
          /\ todoTitle (st w') = []
          /\ exists userId t,
               In (mkExchange (CreateTodo (todoTitle (st w)) userId) (Stored t))
                 (issued (perform remote user currentUser op) w))).
Proof.
  intros w'.
  split; [exact (SameMode_perform remote user currentUser op w)|].
  split; [intros N; exact (SameDraft_perform remote user currentUser op N w)|].
  assert (D : op = Add \/ op <> Add)
    by (destruct op; (now left) || (right; discriminate)).
  destruct D as [->|N];
    [|left; exact (proj1 (SameDraft_perform remote user currentUser op N w))].
  subst w'. simpl perform. destruct currentUser as [u|]; [|now left].
  destruct (forallb isWhiteSpace (todoTitle (st w))) eqn:B.
  - left. run. rewrite blank_guard, B. reflexivity.
  - destruct (create_ remote (log w) (todoTitle (st w)) (User.id u))
      as [t|] eqn:C.
    + right. split; [reflexivity|].
      assert (E : exists tail,
                 issued (handleAddNewTodo remote user (Some u)) w
                 = mkExchange (CreateTodo (todoTitle (st w)) (User.id u))
                     (Stored t) :: tail
                 /\ todoTitle
                      (st (exec (handleAddNewTodo remote user (Some u)) w))
                    = []).
      { run. rewrite blank_guard, B. simpl. rewrite C. simpl.
        destruct user as [first|]; simpl;
          [destruct (list_ remote _ (User.id first)); simpl;
           rewrite <- app_assoc|];
          rewrite (skipn_length_app (log w)); eexists; split; reflexivity. }
      destruct E as [tail [E T]]. split; [exact T|].
      exists (User.id u), t. rewrite E. now left.
    + left. run. rewrite blank_guard, B. simpl. rewrite C. reflexivity.
Qed.

(** A draft is typed and todo 1 is removed: the draft is still there. *)
Lemma draft_cleared_only_by_create_witness :
  let w := exec (handleSetTodoTitle (js "milk")) (showing [todoA]) in
  Remove 1 <> Add
  /\ todoTitle
       (st (exec (perform (serving []) (Some alice) (Some alice) (Remove 1))
              w))
     = js "milk".
Proof.
  intros w.
  assert (N : Remove 1 <> Add) by discriminate.
  split; [exact N|].
  destruct (draft_cleared_only_by_create
              (serving []) (Some alice) (Some alice) (Remove 1) w)
    as [_ [H _]].
  exact (proj1 (H N)).
Defined.

(** ** The list that toggleAll closes over *)

Lemma SameClosure_refl (w : World) : SameClosure w w.
Proof. reflexivity. Qed.

Lemma SameClosure_trans (w1 w2 w3 : World) :
  SameClosure w1 w2 -> SameClosure w2 w3 -> SameClosure w1 w3.
Proof. unfold SameClosure. congruence. Qed.

Lemma SameClosure_showError message : Maintains SameClosure (showError message).
Proof. primitive. Qed.

Lemma SameClosure_loadTodos remote user :
  Maintains SameClosure (loadTodos remote user).
Proof.
  apply (Maintains_loadTodos _ SameClosure_refl SameClosure_trans);
    [apply SameClosure_showError | |]; intros ?; primitive.
Qed.

(** X6. [handleToggleAllTodos] is re-created only when [selectedTodoIds]
    changes. So reload, add and remove, which may replace the list, leave
    the handler closing over the list it had; toggle, toggleAll and rename
    end by storing new selected ids, after which the handler closes over
    the current list, and the next toggleAll sends exactly the updates that
    this list calls for. *)
Theorem toggleAll_closure_refresh
    (remote : RemoteStore) (user currentUser : option User.t) (w : World) :
  (forall op,
     (op = Reload \/ op = Add \/ exists id, op = Remove id) ->
     toggleAllTodos (exec (perform remote user currentUser op) w)
     = toggleAllTodos w)
  /\ (forall op,
        ((exists id completed, op = Toggle id completed)
         \/ op = ToggleAll
         \/ exists id title, op = Rename id title) ->
        let w' := exec (perform remote user currentUser op) w in
        toggleAllTodos w' = todos (st w')
        /\ updatesIssued (handleToggleAllTodos remote user) w'
           = toggleAllUpdates (todos (st w'))).
Proof.
  assert (S := SameClosure_showError).
  assert (L := SameClosure_loadTodos remote user).
  split.
  - intros op [->|[->|[id ->]]]; simpl.
    + exact (L w).
    + apply (Maintains_add _ SameClosure_refl SameClosure_trans
               remote user currentUser S L);
        intros; primitive.
    + unfold handleDeleteTodo.
      revert w. steps SameClosure_refl SameClosure_trans ltac:(auto);
        primitive.
  - assert (F : forall op,
               ((exists id completed, op = Toggle id completed)
                \/ op = ToggleAll
                \/ exists id title, op = Rename id title) ->
               toggleAllTodos (exec (perform remote user currentUser op) w)
               = todos (st (exec (perform remote user currentUser op) w))).
    { intros op H.
      assert (E : exists f w1,
                 exec (perform remote user currentUser op) w
                 = exec (setSelectedTodoIds f) w1).
      { destruct H as [[id [completed ->]]|[->|[id [title ->]]]];
          unfold exec; simpl perform.
        - unfold handleToggleTodo, tryCatch. unfold bind at 1. simpl.
          unfold bind at 1.
          destruct (updateTodo remote id _ _) as [[t|] w1];
            [|do 2 eexists; reflexivity].
          unfold bind at 1.
          destruct (loadTodos remote user w1) as [[[]|] w2];
            do 2 eexists; reflexivity.
        - unfold handleToggleAllTodos, toggleAllOf, tryCatch. unfold bind at 1.
          destruct (promiseAll _ w) as [[[]|] w1];
            [|do 2 eexists; reflexivity].
          unfold bind at 1.
          destruct (loadTodos remote user w1) as [[[]|] w2];
            do 2 eexists; reflexivity.
        - unfold handleChangeTodoTitle, tryCatch. unfold bind at 1. simpl.
          unfold bind at 1.
          destruct (updateTodo remote id _ _) as [[t|] w1];
            [|do 2 eexists; reflexivity].
          unfold bind at 1.
          destruct (loadTodos remote user w1) as [[[]|] w2];
            do 2 eexists; reflexivity. }
      destruct E as [f [w1 E]]. rewrite E. reflexivity. }
    intros op H w'. split; [exact (F op H)|].
    change (updatesIssued (handleToggleAllTodos remote user) w')
      with (updatesIssued (toggleAllOf remote user (toggleAllTodos w')) w').
    unfold w'. rewrite (F op H). apply toggleAllOf_run.
Qed.

(** After the first load the handler closes over the empty list, and adding
    a todo does not change that; after one toggleAll it closes over the
    list on display. *)
Lemma toggleAll_closure_refresh_witness :
  let remote := serving [todoA] in
  let w := exec (perform remote (Some alice) (Some alice) Reload) initialWorld in
  (Add = Reload \/ Add = Add \/ exists id, Add = Remove id)
  /\ toggleAllTodos (exec (perform remote (Some alice) (Some alice) Add) w)
     = []
  /\ toggleAllTodos
       (exec (perform remote (Some alice) (Some alice) ToggleAll) w)
     = [todoA].
Proof.
  intros remote w.
  destruct (toggleAll_closure_refresh remote (Some alice) (Some alice) w)
    as [Stale Fresh].
  assert (A : Add = Reload \/ Add = Add \/ exists id, Add = Remove id)
    by (right; left; reflexivity).
  split; [exact A|]. split.
  - rewrite (Stale Add A). reflexivity.
  - destruct (Fresh ToggleAll (or_intror (or_introl eq_refl))) as [F _].
    rewrite F. reflexivity.
Defined.

(** ** toggle and rename *)

(** X7. When the update of a toggle or of a rename is rejected, the error
    "Unable to update a todo" is raised and the selected ids are reset to
    empty, whatever they held; nothing else is sent (no reload), and the
    list and the pending ids are kept. *)
Theorem update_failure_resets_selected
    (remote : RemoteStore) (user : option User.t) (w : World) (id : Z) :
  (forall completed,
     let toggle := handleToggleTodo remote user id completed in
     let patch := PatchCompleted (negb completed) in
     update_ remote (log w) id patch = None ->
     issued toggle w = [mkExchange (UpdateTodo id patch) Rejected]
     /\ error (st (exec toggle w))
        = {| status := true; message := js "Unable to update a todo" |}
     /\ selectedTodoIds (st (exec toggle w)) = []
     /\ todos (st (exec toggle w)) = todos (st w)
     /\ deletedTodoIds (st (exec toggle w)) = deletedTodoIds (st w))
  /\ (forall title,
        let rename := handleChangeTodoTitle remote user id title in
        update_ remote (log w) id (PatchTitle title) = None ->
        issued rename w = [mkExchange (UpdateTodo id (PatchTitle title)) Rejected]
        /\ error (st (exec rename w))
           = {| status := true; message := js "Unable to update a todo" |}
        /\ selectedTodoIds (st (exec rename w)) = []
        /\ todos (st (exec rename w)) = todos (st w)
        /\ deletedTodoIds (st (exec rename w)) = deletedTodoIds (st w)).
Proof.
  split.
  - intros completed toggle patch U. subst toggle patch. run. rewrite U.
    simpl. rewrite (skipn_length_app (log w)). repeat split.
  - intros title rename U. subst rename. run. rewrite U.
    simpl. rewrite (skipn_length_app (log w)). repeat split.
Qed.

(** Todo 2 is selected; offline, a toggle of todo 1 clears both markers. *)
Lemma update_failure_resets_selected_witness :
  let w := exec (setSelectedTodoIds (fun _ => [2])) (showing [todoA; todoB]) in
  update_ offline (log w) 1 (PatchCompleted (negb false)) = None
  /\ selectedTodoIds (st (exec (handleToggleTodo offline (Some alice) 1 false) w))
     = []
  /\ todos (st (exec (handleToggleTodo offline (Some alice) 1 false) w))
     = [todoA; todoB].
Proof.
  intros w.
  destruct (update_failure_resets_selected offline (Some alice) w 1) as [H _].
  destruct (H false eq_refl) as [_ [_ [S [T _]]]].
  split; [reflexivity|]. split; [exact S | exact T].
Defined.

(** X8. A rename sends the title as it is given, blank or not: its first
    call is one update carrying that title. When the update is fulfilled
    the reload follows, the selected ids end up empty, and the list is the
    one the reload returned, or unchanged when the reload failed. *)
Theorem rename_sends_title_as_given
    (remote : RemoteStore) (u : User.t) (w : World) (id : Z) (title : jsstring) :
  let rename := handleChangeTodoTitle remote (Some u) id title in
  let update := UpdateTodo id (PatchTitle title) in
  map call (firstn 1 (issued rename w)) = [update]
  /\ (forall t,
        update_ remote (log w) id (PatchTitle title) = Some t ->
        map call (issued rename w) = [update; GetTodos (User.id u)]
        /\ selectedTodoIds (st (exec rename w)) = []
        /\ todos (st (exec rename w))
           = cacheAfter (issued rename w) (todos (st w))).
Proof.
  intros rename update. subst rename update. split.
  - run. destruct (update_ remote (log w) id (PatchTitle title)); simpl.
    + destruct (list_ remote _ (User.id u)); simpl;
        now rewrite <- app_assoc, (skipn_length_app (log w)).
    + now rewrite (skipn_length_app (log w)).
  - intros t U. run. rewrite U. simpl.
    destruct (list_ remote _ (User.id u)); simpl;
      rewrite <- app_assoc, (skipn_length_app (log w)); repeat split.
Qed.

(** Renaming todo 1 to the empty title is sent to the store. *)
Lemma rename_sends_title_as_given_witness :
  let w := exec (setSelectedTodoIds (fun _ => [2])) (showing [todoA; todoB]) in
  let rename := handleChangeTodoTitle (serving [todoA]) (Some alice) 1 [] in
  update_ (serving [todoA]) (log w) 1 (PatchTitle []) = Some todoA
  /\ map call (issued rename w) = [UpdateTodo 1 (PatchTitle []); GetTodos 7]
  /\ selectedTodoIds (st (exec rename w)) = [].
Proof.
  intros w rename.
  destruct (rename_sends_title_as_given (serving [todoA]) alice w 1 [])
    as [_ H].
  destruct (H todoA eq_refl) as [C [S _]].
  split; [reflexivity|]. split; [exact C | exact S].
Defined.

(** ** removeCompleted and remove, when the deletes are fulfilled *)

(** The one exchange of a reload, when there is an owner. *)
Lemma loadTodos_log (remote : RemoteStore) (user : option User.t) (w : World) :
  exists tail,
    log (exec (loadTodos remote user) w) = log w ++ tail
    /\ map call tail
       = match user with
         | Some u => [GetTodos (User.id u)]
         | None => []
         end.
Proof.
  run. destruct user as [u|]; simpl.
  - destruct (list_ remote (log w) (User.id u)); simpl;
      eexists; split; reflexivity.
  - exists []. now rewrite app_nil_r.
Qed.

(** X9. When no delete of [removeCompleted] is rejected, the calls sent are
    one delete per completed todo, in list order, then the reload; the
    pending ids are left holding the ids of the completed todos, the
    selected ids are untouched, and the list is the one the reload
    returned (or unchanged when the reload failed). On a list without a
    completed todo this means: no delete, the reload only, and the pending
    ids emptied. *)
Theorem removeCompleted_fulfilled
    (remote : RemoteStore) (user : option User.t) (w : World) :
  let removeCompleted := handleDeleteCompletedTodos remote user in
  let completedTodoIds := map Todo.id (filter Todo.completed (todos (st w))) in
  let reload :=
    match user with
    | Some u => [GetTodos (User.id u)]
    | None => []
    end in
  ((forall id,
      ~ In (mkExchange (DeleteTodo id) Rejected) (issued removeCompleted w)) ->
   map call (issued removeCompleted w)
   = map DeleteTodo completedTodoIds ++ reload
   /\ deletedTodoIds (st (exec removeCompleted w)) = completedTodoIds
   /\ selectedTodoIds (st (exec removeCompleted w)) = selectedTodoIds (st w)
   /\ todos (st (exec removeCompleted w))
      = cacheAfter (issued removeCompleted w) (todos (st w)))
  /\ (filter Todo.completed (todos (st w)) = [] ->
      map call (issued removeCompleted w) = reload
      /\ deletedTodoIds (st (exec removeCompleted w)) = []).
Proof.
  intros removeCompleted ids reload.
  assert (T : todos (st (exec removeCompleted w))
              = cacheAfter (issued removeCompleted w) (todos (st w))).
  { destruct (Reconciles_perform remote user None RemoveCompleted w)
      as [n [L T]].
    change (perform remote user None RemoveCompleted)
      with removeCompleted in L, T.
    unfold issued, exec. rewrite L, skipn_length_app. exact T. }
  assert (G : (forall id,
                 ~ In (mkExchange (DeleteTodo id) Rejected)
                     (issued removeCompleted w)) ->
              map call (issued removeCompleted w)
              = map DeleteTodo ids ++ reload
              /\ deletedTodoIds (st (exec removeCompleted w)) = ids
              /\ selectedTodoIds (st (exec removeCompleted w))
                 = selectedTodoIds (st w)).
  { intros H. unfold issued, exec in *. subst removeCompleted.
    destruct (removeCompleted_run remote user w) as [new [C [[F E] | [F E]]]];
      rewrite E in *; clear E.
    - set (w0 := logged new _) in *.
      destruct (loadTodos_log remote user w0) as [tail [L K]].
      destruct (loadTodos_frame remote user w0) as [D [S _]].
      unfold exec in L, D, S. rewrite L, D, S. unfold w0. simpl.
      rewrite <- app_assoc, skipn_length_app, map_app, C, K.
      repeat split.
    - exfalso. apply in_map_iff in F. destruct F as [[c r] [Er I]].
      simpl in Er. subst r.
      assert (Ic : In c (map call new))
        by (apply in_map_iff; exists (mkExchange c Rejected); now split).
      rewrite C in Ic. apply in_map_iff in Ic. destruct Ic as [id [<- _]].
      apply (H id). simpl. rewrite skipn_length_app. exact I. }
  split.
  - intros H. destruct (G H) as [C [D S]]. repeat split; assumption.
  - intros N.
    assert (H : forall id,
               ~ In (mkExchange (DeleteTodo id) Rejected)
                   (issued removeCompleted w)).
    { intros id I. unfold issued, exec in I. subst removeCompleted.
      destruct (removeCompleted_run remote user w) as [new [C [[F E] | [F E]]]];
        rewrite E in *; clear E; rewrite N in C; simpl in C;
        apply map_eq_nil in C; subst new.
      - set (w0 := logged [] _) in *.
        destruct (loadTodos_log remote user w0) as [tail [L K]].
        unfold exec in L. rewrite L in I. unfold w0 in I. simpl in I.
        rewrite app_nil_r, skipn_length_app in I.
        apply (in_map call) in I. rewrite K in I. simpl in I.
        destruct user; simpl in I; [destruct I as [I|I]; [discriminate I|]|];
          exact I.
      - exact F. }
    destruct (G H) as [C [D _]]. subst ids. rewrite N in *. now split.
Qed.

(** Todo 2 is completed; its delete and the reload succeed. *)
Lemma removeCompleted_fulfilled_witness :
  let w := showing [todoA; todoB] in
  let removeCompleted := handleDeleteCompletedTodos (serving [todoA]) (Some alice) in
  (forall id,
     ~ In (mkExchange (DeleteTodo id) Rejected) (issued removeCompleted w))
  /\ map call (issued removeCompleted w) = [DeleteTodo 2; GetTodos 7]
  /\ deletedTodoIds (st (exec removeCompleted w)) = [2]
  /\ todos (st (exec removeCompleted w)) = [todoA].
Proof.
  intros w removeCompleted.
  assert (H : forall id,
             ~ In (mkExchange (DeleteTodo id) Rejected)
                 (issued removeCompleted w)).
  { intros id [I|[I|[]]]; discriminate I. }
  destruct (removeCompleted_fulfilled (serving [todoA]) (Some alice) w)
    as [G _].
  destruct (G H) as [C [D [_ T]]].
  split; [exact H|]. split; [exact C|]. split; [exact D|].
  unfold removeCompleted. rewrite T. reflexivity.
Defined.

Lemma remove_appends
    (remote : RemoteStore) (user : option User.t) (id : Z) (w : World) :
  delete_ remote (log w) id = true ->
  deletedTodoIds (st (exec (handleDeleteTodo remote user id) w))
  = deletedTodoIds (st w) ++ [id].
Proof.
  intros D. run. rewrite D. simpl. destruct user as [u|]; simpl;
    [destruct (list_ remote _ (User.id u))|]; reflexivity.
Qed.

(** X10. The pending ids only grow while deletes succeed: on a store that
    fulfils every delete, after removing the todos [ids] one after the
    other the pending ids are the prior ones followed by [ids], whether the
    reloads succeed or not. No successful remove takes an id out. *)
Theorem removes_accumulate_pending
    (remote : RemoteStore) (user currentUser : option User.t) (ids : list Z)
    (w : World) :
  (forall history id, delete_ remote history id = true) ->
  deletedTodoIds (st (performAll remote user currentUser (map Remove ids) w))
  = deletedTodoIds (st w) ++ ids.
Proof.
  intros D. revert w. induction ids as [|id ids IH]; intros w; simpl.
  - symmetry. apply app_nil_r.
  - unfold performAll in *. rewrite IH. simpl perform.
    rewrite remove_appends by apply D. now rewrite <- app_assoc.
Qed.

(** Todos 1 and 2 are removed on a store that serves the empty list. *)
Lemma removes_accumulate_pending_witness :
  (forall history id, delete_ (serving []) history id = true)
  /\ deletedTodoIds
       (st (performAll (serving []) (Some alice) (Some alice)
              [Remove 1; Remove 2] (showing [todoA; todoB])))
     = [1; 2].
Proof.
  assert (D : forall history id, delete_ (serving []) history id = true)
    by reflexivity.
  split; [exact D|].
  exact (removes_accumulate_pending (serving []) (Some alice) (Some alice)
           [1; 2] (showing [todoA; todoB]) D).
Defined.

(** ** FilterView, composed *)

(** X11. Filtering is idempotent and the modes compose as expected:
    filtering a view again by its own mode changes nothing, [ALL] after any
    mode is that mode, the active items of the completed view (and the
    completed items of the active view) are none, and the sizes of the
    active and completed views add up to the size of the list. *)
Theorem filteredTodos_compose (L : list Todo.t) (M : FilterType) :
  filteredTodos (filteredTodos L M) M = filteredTodos L M
  /\ filteredTodos (filteredTodos L M) ALL = filteredTodos L M
  /\ filteredTodos (filteredTodos L ALL) M = filteredTodos L M
  /\ filteredTodos (filteredTodos L COMPLETED) ACTIVE = []
  /\ filteredTodos (filteredTodos L ACTIVE) COMPLETED = []
  /\ (List.length (filteredTodos L ACTIVE)
      + List.length (filteredTodos L COMPLETED) = List.length L)%nat.
Proof.
  unfold filteredTodos. split; [|split; [|split; [|split; [|split]]]].
  - induction L as [|t L IH]; simpl; [reflexivity|].
    destruct (keeps M t) eqn:K; simpl; [rewrite K; f_equal|]; exact IH.
  - apply filter_true.
  - replace (filter (keeps ALL) L) with L by (symmetry; apply filter_true).
    reflexivity.
  - induction L as [|t L IH]; simpl; [reflexivity|].
    destruct (Todo.completed t) eqn:K; simpl; [rewrite K|]; exact IH.
  - induction L as [|t L IH]; simpl; [reflexivity|].
    destruct (Todo.completed t) eqn:K; simpl; [|rewrite K]; exact IH.
  - induction L as [|t L IH]; simpl; [reflexivity|].
    destruct (Todo.completed t); simpl; lia.
Qed.

(** X12. The toggle-all button is shown as active ([isEachTodoCompleted])
    exactly when the active view of the list is empty, that is, when the
    completed view is the whole list; in particular on the empty list. *)
Theorem isEachTodoCompleted_no_active (L : list Todo.t) :
  (isEachTodoCompleted L = true <-> filteredTodos L ACTIVE = [])
  /\ (isEachTodoCompleted L = true <-> filteredTodos L COMPLETED = L)
  /\ isEachTodoCompleted [] = true.
Proof.
  unfold isEachTodoCompleted, filteredTodos. split; [|split; [|reflexivity]].
  - induction L as [|t L IH]; simpl; [tauto|].
    destruct (Todo.completed t); simpl; [exact IH|].
    split; discriminate.
  - induction L as [|t L IH]; simpl; [tauto|].
    destruct (Todo.completed t) eqn:K; simpl.
    + split; intros H; [f_equal; now apply IH | apply IH; now injection H].
    + split; [discriminate|]. intros H.
      assert (I : In t (filter (keeps COMPLETED) L))
        by (rewrite H; now left).
      apply filter_In in I. destruct I as [_ I]. simpl in I. congruence.
Qed.

(** ** ErrorNotifier, one raise *)

(** X13. An error raised while no timer is pending is on display for
    3000 ms and is gone from then on. A dismissal clears the error at once,
    whatever time has passed; it cancels no timer, and the error stays
    cleared as time passes. *)
Theorem error_raised_then_cleared (message : jsstring) (w : World) (ms : Z) :
  0 <= ms ->
  (timers w = [] ->
   error (st (elapse ms (exec (showError message) w)))
   = if ms <? 3000
     then {| status := true; message := message |}
     else noError)
  /\ error (st (exec handleCloseError w)) = noError
  /\ timers (exec handleCloseError w) = timers w
  /\ error (st (elapse ms (exec handleCloseError w))) = noError.
Proof.
  intros P. split; [|split; [|split]].
  - intros T. rewrite elapse_state. unfold exec, showError, bind. simpl.
    rewrite T. simpl.
    destruct (Z.leb_spec (now w + 3000) (now w + ms));
      destruct (Z.ltb_spec ms 3000); try lia; reflexivity.
  - reflexivity.
  - reflexivity.
  - rewrite elapse_state. now destruct (filter _ _).
Qed.

(** "A" is raised: it shows at 2999 ms and not at 3000 ms. *)
Lemma error_raised_then_cleared_witness :
  (0 <= 2999 /\ 0 <= 3000 /\ timers initialWorld = [])
  /\ status (error (st (elapse 2999 (exec (showError (js "A")) initialWorld))))
     = true
  /\ status (error (st (elapse 3000 (exec (showError (js "A")) initialWorld))))
     = false.
Proof.
  assert (P1 : 0 <= 2999) by lia.
  assert (P2 : 0 <= 3000) by lia.
  destruct (error_raised_then_cleared (js "A") initialWorld 2999 P1) as [H1 _].
  destruct (error_raised_then_cleared (js "A") initialWorld 3000 P2) as [H2 _].
  split; [split; [exact P1 | split; [exact P2 | reflexivity]]|].
  split; [rewrite (H1 eq_refl) | rewrite (H2 eq_refl)]; reflexivity.
Defined.

(** ** Mutations first, then at most one read *)

Lemma Mutates_ret {A} (a : A) : Mutates (ret a).
Proof.
  intros w. exists []. simpl. now rewrite app_nil_r.
Qed.

Lemma Mutates_bind {A B} (m : M A) (k : A -> M B) :
  Mutates m -> (forall a, Mutates (k a)) -> Mutates (bind m k).
Proof.
  intros Hm Hk w. unfold bind. destruct (Hm w) as [n1 [L1 [C1 N1]]].
  destruct (m w) as [[a|] w1]; simpl in *.
  - destruct (Hk a w1) as [n2 [L2 [C2 N2]]]. exists (n1 ++ n2).
    rewrite L2, L1, <- app_assoc. split; [reflexivity|].
    rewrite map_app, forallb_app, C1, C2. split; [reflexivity|].
    intros b E. rewrite existsb_app, (N1 a eq_refl), (N2 b E). reflexivity.
  - exists n1. split; [exact L1|]. split; [exact C1 | discriminate].
Qed.

Lemma Mutates_promiseAll (tasks : list (M unit)) :
  Forall Mutates tasks -> Mutates (promiseAll tasks).
Proof.
  induction 1 as [|task rest Ht _ IH]; intros w; simpl.
  - exists []. simpl. now rewrite app_nil_r.
  - destruct (Ht w) as [n1 [L1 [C1 N1]]].
    destruct (task w) as [[[]|] w1]; simpl in *;
      destruct (IH w1) as [n2 [L2 [C2 N2]]]; exists (n1 ++ n2);
      rewrite L2, L1, <- app_assoc; (split; [reflexivity|]);
      rewrite map_app, forallb_app, C1, C2; (split; [reflexivity|]).
    + intros b E. rewrite existsb_app, (N1 tt eq_refl), (N2 b E). reflexivity.
    + discriminate.
Qed.

(** A single mutation: logged, and fulfilled when the call returns. *)
Ltac one_mutation :=
  intros ?w; unfold createTodo, updateTodo, deleteTodo, record;
  match goal with
  | |- context [match ?x with _ => _ end] => destruct x
  end;
  simpl; eexists; (split; [reflexivity|]); (split; [reflexivity|]);
  intros; (reflexivity || discriminate).

Lemma Mutates_createTodo remote title userId :
  Mutates (createTodo remote title userId).
Proof. one_mutation. Qed.

Lemma Mutates_updateTodo remote todoId patch :
  Mutates (updateTodo remote todoId patch).
Proof. one_mutation. Qed.

Lemma Mutates_deleteTodo remote todoId : Mutates (deleteTodo remote todoId).
Proof. one_mutation. Qed.

Lemma Mutates_Quiet (m : M unit) : Quiet m -> Mutates m.
Proof.
  intros Q w. destruct (Q w) as [_ L]. exists []. rewrite L, app_nil_r.
  repeat split.
Qed.

Lemma ReadsOnce_loadTodos remote user : ReadsOnce user (loadTodos remote user).
Proof.
  intros w. split; [apply loadTodos_returns|].
  unfold loadTodos, tryCatch, bind, getTodos. destruct user as [u|].
  - destruct (list_ remote (log w) (User.id u)); simpl;
      eexists; (split; [reflexivity|]); right; do 2 eexists; split; reflexivity.
  - exists []. simpl. rewrite app_nil_r. split; [reflexivity | now left].
Qed.

Lemma ReadsOnce_then user (m post : M unit) :
  ReadsOnce user m -> Quiet post -> ReadsOnce user (m ;; post).
Proof.
  intros Hm Hp w. unfold bind. destruct (Hm w) as [N [tail [L O]]].
  destruct (m w) as [[[]|] w1]; simpl in *; [|discriminate N].
  destruct (Hp w1) as [N' L']. split; [exact N'|].
  exists tail. rewrite L', L. now split.
Qed.

(** The body of every operation: the mutations, then something that reads
    at most once; its [catch] block sends nothing. *)
Lemma ReadsLast_tryCatch {A} user (m : M A) (rest handler : M unit) (w : World) :
  Mutates m -> ReadsOnce user rest -> Quiet handler ->
  ReadsLast user (issued (tryCatch (m ;; rest) handler) w).
Proof.
  intros Hm Hr Hh. unfold issued, exec, tryCatch, bind.
  destruct (Hm w) as [muts [L [C N]]].
  destruct (m w) as [[a|] w1]; simpl in *.
  - destruct (Hr w1) as [E [tail [L1 O]]].
    destruct (rest w1) as [[[]|] w2]; simpl in *; [|discriminate E].
    exists muts, tail. rewrite L1, L, <- app_assoc, skipn_length_app.
    split; [reflexivity|]. split; [exact C|]. split; [exact O|].
    rewrite (N a eq_refl). discriminate.
  - destruct (Hh w1) as [_ L1]. exists muts, [].
    rewrite L1, L, skipn_length_app, app_nil_r.
    split; [reflexivity|]. split; [exact C|]. split; [now left | reflexivity].
Qed.

(** The state setters, alone or after [showError], are quiet. *)
Ltac quiet :=
  match goal with
  | |- Quiet _ => intros ?w; split; reflexivity
  end.

Lemma ReadsOnce_Quiet user (m : M unit) : Quiet m -> ReadsOnce user m.
Proof.
  intros Q w. destruct (Q w) as [N L]. split; [exact N|].
  exists []. rewrite L, app_nil_r. split; [reflexivity | now left].
Qed.

Lemma ReadsLast_body {A} user (body : M unit) (m : M A) (rest handler : M unit)
    (w0 w : World) :
  log w0 = log w ->
  (forall w1, body w1 = (m ;; rest) w1) ->
  Mutates m -> ReadsOnce user rest -> Quiet handler ->
  ReadsLast user
    (skipn (List.length (log w)) (log (snd (tryCatch body handler w0)))).
Proof.
  intros L E Hm Hr Hh.
  assert (T : tryCatch body handler w0 = tryCatch (m ;; rest) handler w0)
    by (unfold tryCatch; now rewrite E).
  rewrite T, <- L. apply (ReadsLast_tryCatch user m rest handler w0 Hm Hr Hh).
Qed.

(** X14. Whatever the store answers, the exchanges of an operation are its
    mutations (create, update, delete) followed by at most one read of the
    owner's list: the read is never sent before a mutation of the same
    operation has settled, never twice, and never after a rejected
    mutation. *)
Theorem reads_come_last
    (remote : RemoteStore) (user currentUser : option User.t) (op : Op)
    (w : World) :
  exists muts tail,
    issued (perform remote user currentUser op) w = muts ++ tail
    /\ forallb isMutation (map call muts) = true
    /\ (tail = []
        \/ exists u r,
             user = Some u /\ tail = [mkExchange (GetTodos (User.id u)) r])
    /\ (existsb isRejected muts = true -> tail = []).
Proof.
  change (ReadsLast user (issued (perform remote user currentUser op) w)).
  assert (Load := ReadsOnce_loadTodos remote user).
  destruct op; simpl perform; unfold issued, exec.
  - destruct (Load w) as [_ [tail [L O]]]. exists [], tail.
    rewrite L, skipn_length_app.
    split; [reflexivity|]. split; [reflexivity|].
    split; [exact O | discriminate].
  - destruct currentUser as [u|].
    + set (w0 := exec (setIsAdding true) w).
      change (handleAddNewTodo remote user (Some u) w)
        with (tryCatch
                (if (List.length (trim (todoTitle (st w))) =? 0)%nat
                 then showError (js "Title can't be empty") ;;
                      setIsAdding false
                 else createTodo remote (todoTitle (st w)) (User.id u) ;;
                      loadTodos remote user ;;
                      setIsAdding false ;;
                      setTodoTitle [])
                (showError (js "Unable to add a todo") ;; setIsAdding false)
                w0).
      destruct (List.length (trim (todoTitle (st w))) =? 0)%nat.
      * apply (ReadsLast_body _ _ (showError (js "Title can't be empty"))
                 (setIsAdding false) _ w0 w eq_refl); try quiet.
        -- reflexivity.
        -- apply Mutates_Quiet. quiet.
        -- apply ReadsOnce_Quiet. quiet.
      * apply (ReadsLast_body _ _
                 (createTodo remote (todoTitle (st w)) (User.id u))
                 (loadTodos remote user ;;
                  setIsAdding false ;; setTodoTitle [])
                 _ w0 w eq_refl); try quiet.
        -- reflexivity.
        -- apply Mutates_createTodo.
        -- apply ReadsOnce_then; [exact Load | quiet].
    + exists [], [].
      split; [|split; [reflexivity | split; [now left | discriminate]]].
      pose proof (skipn_length_app (log w) []) as K.
      rewrite app_nil_r in K. exact K.
  - set (w0 := exec (setDeletedTodoIds (fun l => l ++ [id])) w).
    change (handleDeleteTodo remote user id w)
      with (tryCatch (deleteTodo remote id ;; loadTodos remote user)
              (showError (js "Unable to delete a todo") ;;
               setDeletedTodoIds (fun _ => [])) w0).
    apply (ReadsLast_body _ _ (deleteTodo remote id) (loadTodos remote user)
             _ w0 w eq_refl); try quiet;
      [reflexivity | apply Mutates_deleteTodo | exact Load].
  - set (tasks := map (fun todo =>
                         if Todo.completed todo
                         then deleteTodo remote (Todo.id todo)
                         else ret tt) (todos (st w))).
    set (ids := map Todo.id (filter Todo.completed (todos (st w)))).
    change (handleDeleteCompletedTodos remote user w)
      with (tryCatch
              (setDeletedTodoIds (fun _ => ids) ;;
               promiseAll tasks ;; loadTodos remote user)
              (showError (js "Unable to delete a todo") ;;
               setSelectedTodoIds (fun _ => [])) w).
    apply (ReadsLast_body _ _
             (setDeletedTodoIds (fun _ => ids) ;; promiseAll tasks)
             (loadTodos remote user) _ w w eq_refl); try quiet.
    + intros w1. unfold bind. simpl.
      now destruct (promiseAll tasks _) as [[[]|] w2].
    + apply Mutates_bind; [apply Mutates_Quiet; quiet | intros _].
      apply Mutates_promiseAll. apply Forall_map, Forall_forall. intros t _.
      destruct (Todo.completed t);
        [apply Mutates_deleteTodo | apply Mutates_ret].
    + exact Load.
  - set (w0 := exec (setSelectedTodoIds (fun l => l ++ [id])) w).
    change (handleToggleTodo remote user id completed w)
      with (tryCatch
              (updateTodo remote id (PatchCompleted (negb completed)) ;;
               loadTodos remote user ;;
               setSelectedTodoIds
                 (fun l => filter (fun i => negb (i =? id)) l))
              (showError (js "Unable to update a todo") ;;
               setSelectedTodoIds (fun _ => [])) w0).
    apply (ReadsLast_body _ _
             (updateTodo remote id (PatchCompleted (negb completed)))
             (loadTodos remote user ;;
              setSelectedTodoIds (fun l => filter (fun i => negb (i =? id)) l))
             _ w0 w eq_refl); try quiet;
      [reflexivity | apply Mutates_updateTodo
      | apply ReadsOnce_then; [exact Load | quiet]].
  - unfold handleToggleAllTodos, toggleAllOf.
    match goal with
    | |- context [tryCatch (bind ?m (fun _ => ?rest)) ?h w] =>
        apply (ReadsLast_body _ _ m rest h w w eq_refl)
    end; try quiet.
    + reflexivity.
    + apply Mutates_promiseAll. apply Forall_map, Forall_forall. intros t _.
      destruct (negb (Todo.completed t) || _); [|apply Mutates_ret].
      apply Mutates_bind; [apply Mutates_Quiet; quiet | intros _].
      apply Mutates_bind; [apply Mutates_updateTodo | intros _].
      apply Mutates_ret.
    + apply ReadsOnce_then; [exact Load | quiet].
  - set (w0 := exec (setSelectedTodoIds (fun _ => [id])) w).
    change (handleChangeTodoTitle remote user id title w)
      with (tryCatch
              (updateTodo remote id (PatchTitle title) ;;
               loadTodos remote user ;;
               setSelectedTodoIds (fun _ => []))
              (showError (js "Unable to update a todo") ;;
               setSelectedTodoIds (fun _ => [])) w0).
    apply (ReadsLast_body _ _
             (updateTodo remote id (PatchTitle title))
             (loadTodos remote user ;; setSelectedTodoIds (fun _ => []))
             _ w0 w eq_refl); try quiet;
      [reflexivity | apply Mutates_updateTodo
      | apply ReadsOnce_then; [exact Load | quiet]].
Qed.

(** Offline, a remove sends its delete, which is rejected, and no read. *)
Lemma reads_come_last_witness :
  let new :=
    issued (perform offline (Some alice) (Some alice) (Remove 1))
      (showing [todoA]) in
  new = [mkExchange (DeleteTodo 1) Rejected]
  /\ exists muts tail,
       new = muts ++ tail
       /\ forallb isMutation (map call muts) = true
       /\ (existsb isRejected muts = true -> tail = []).
Proof.
  intros new. split; [reflexivity|].
  destruct (reads_come_last offline (Some alice) (Some alice) (Remove 1)
              (showing [todoA]))
    as [muts [tail [E [C [_ N]]]]].
  exists muts, tail. split; [exact E | split; [exact C | exact N]].
Defined.
